(** * The signaling and peer-connection state machine of the meeting client

    A shallow embedding of [src/features/video-call/hooks/useWebRTC.ts]:
    the React state and refs of the [useWebRTC] hook, the socket it talks
    to, the browser timers it arms, and every handler the hook registers.
    Handlers run to completion on one event loop, so each of them is a
    function from state to state; what a handler does after an [await] is
    a step of its own. A run ([run]) is one session of the effect: it
    starts when the effect has joined the room and ends before its
    cleanup. Sessions follow one another in a component ([play]), which
    keeps the state and the refs while the effect is cleaned up and run
    again. *)

From stdpp Require Import gmap strings list fin_maps.
From Stdlib Require Import ZArith Lia.

(** ** Array primitives of the host language *)

Module Js.

(** [Array.prototype.findIndex]: index of the first element that
    satisfies [p], and [-1] when there is none. *)
Fixpoint findIndex_from {A} (p : A → bool) (l : list A) (i : Z) : Z :=
  match l with
  | [] => (-1)%Z
  | x :: l' => if p x then i else findIndex_from p l' (i + 1)%Z
  end.

Definition findIndex {A} (p : A → bool) (l : list A) : Z :=
  findIndex_from p l 0%Z.

(** [Array.prototype.filter] with the three-argument callback
    [(element, index, self)]. *)
Fixpoint filter_from {A} (p : A → Z → list A → bool)
    (self l : list A) (i : Z) : list A :=
  match l with
  | [] => []
  | x :: l' =>
      if p x i self then x :: filter_from p self l' (i + 1)%Z
      else filter_from p self l' (i + 1)%Z
  end.

Definition filter {A} (p : A → Z → list A → bool) (l : list A) : list A :=
  filter_from p l l 0%Z.

(** [Array.prototype.find] on an array of objects: the element found is
    a reference to a slot of the array, given here as the slot's index;
    [None] is [undefined]. *)
Fixpoint find {A} (p : A → bool) (l : list A) : option nat :=
  match l with
  | [] => None
  | x :: l' => if p x then Some 0 else S <$> find p l'
  end.

(** [Array.prototype.some]. *)
Definition some {A} (p : A → bool) (l : list A) : bool := existsb p l.

End Js.

(** ** Data model *)

Inductive ConnectionStatus := connecting | waiting | joined | rejected.

Inductive TrackKind := audio | video.

Record MediaStreamTrack := { trackId : string; kind : TrackKind }.

Record MediaStream := { streamId : string; getTracks : list MediaStreamTrack }.

(** An [RTCRtpSender]; [track] is nullable in the browser API, whence the
    [s.track?.kind] of [replaceTrack]. *)
Record RTCRtpSender := { track : option MediaStreamTrack }.

Record RTCPeerConnection := { getSenders : list RTCRtpSender }.

(** [interface Participant]. Every construction site of the hook sets both
    flags, so they are plain booleans here. *)
Record Participant := {
  id : string;
  name : string;
  stream : option MediaStream;
  isMicOn : bool;
  isCameraOn : bool
}.

(** The payload [{ userId, userName }] of join-request, user-joined,
    user-left and of the entries of existing-users. *)
Record UserInfo := { userId : string; userName : string }.

Abbreviation RTCIceCandidate := string (only parsing).
Abbreviation SessionDescription := string (only parsing).

#[global] Instance ConnectionStatus_eq_dec : EqDecision ConnectionStatus.
Proof. solve_decision. Defined.
#[global] Instance TrackKind_eq_dec : EqDecision TrackKind.
Proof. solve_decision. Defined.
#[global] Instance MediaStreamTrack_eq_dec : EqDecision MediaStreamTrack.
Proof. solve_decision. Defined.
#[global] Instance MediaStream_eq_dec : EqDecision MediaStream.
Proof. solve_decision. Defined.
#[global] Instance RTCRtpSender_eq_dec : EqDecision RTCRtpSender.
Proof. solve_decision. Defined.
#[global] Instance Participant_eq_dec : EqDecision Participant.
Proof. solve_decision. Defined.
#[global] Instance UserInfo_eq_dec : EqDecision UserInfo.
Proof. solve_decision. Defined.

(** Messages the server sends ([currentSocket.on(...)]). *)
Inductive InEvent :=
| In_waiting_for_approval
| In_join_approved
| In_join_rejected
| In_join_request (data : UserInfo)
| In_user_joined (data : UserInfo)
| In_media_status_update (user : string) (k : TrackKind) (isOn : bool)
| In_offer (from : string) (sdp : SessionDescription) (fromName : string)
| In_answer (from : string) (sdp : SessionDescription)
| In_ice_candidate (from : string) (candidate : RTCIceCandidate)
| In_user_left (data : UserInfo)
| In_existing_users (users : list UserInfo).

(** Messages the client sends ([socket.emit(...)]). *)
Inductive OutMsg :=
| Out_join_room (room user : string)
| Out_ice_candidate (room to : string) (candidate : RTCIceCandidate)
| Out_offer (room to : string) (sdp : SessionDescription) (user : string)
| Out_answer (room to : string) (sdp : SessionDescription)
| Out_admit_user (user room : string)
| Out_reject_user (user room : string)
| Out_toggle_media (room : string) (k : TrackKind) (isOn : bool)
| Out_screen_share_status (room : string) (isSharing : bool).

(** What the hook does to the world outside its own state. *)
Inductive Effect :=
| Emit (m : OutMsg)
| PlaySound
| SocketConnect
| SocketDisconnect
| PcNew (peer : string)
| PcCreateOffer (peer : string)
| PcSetRemoteDescription (peer : string) (sdp : SessionDescription)
| PcAddIceCandidate (peer : string) (candidate : RTCIceCandidate)
| PcClose (peer : string).

#[global] Instance OutMsg_eq_dec : EqDecision OutMsg.
Proof. solve_decision. Defined.
#[global] Instance Effect_eq_dec : EqDecision Effect.
Proof. solve_decision. Defined.

(** A timer of the browser: [setTimeout] hands out positive handles. *)
Record Timeout := { handle : positive; deadline : nat; key : string }.

(** The hook's state and refs, followed by the part of the environment
    the hook drives: the socket, the timer table, the clock (in
    milliseconds) and the time-stamped record of effects. *)
Record State := {
  participants : list Participant;
  peersRef : gmap string RTCPeerConnection;
  pendingRequests : list UserInfo;
  connectionStatus : ConnectionStatus;
  iceCandidateQueue : gmap string (list RTCIceCandidate);
  iceCandidateTimers : gmap string positive;
  connected : bool;
  timeouts : list Timeout;
  nextHandle : positive;
  now : nat;
  effects : list (nat * Effect)
}.

(** ** Field updates *)

Definition setParticipants (f : list Participant → list Participant)
    (st : State) : State :=
  {| participants := f (participants st); peersRef := peersRef st;
     pendingRequests := pendingRequests st;
     connectionStatus := connectionStatus st;
     iceCandidateQueue := iceCandidateQueue st;
     iceCandidateTimers := iceCandidateTimers st;
     connected := connected st; timeouts := timeouts st;
     nextHandle := nextHandle st; now := now st; effects := effects st |}.

Definition setPeers
    (f : gmap string RTCPeerConnection → gmap string RTCPeerConnection)
    (st : State) : State :=
  {| participants := participants st; peersRef := f (peersRef st);
     pendingRequests := pendingRequests st;
     connectionStatus := connectionStatus st;
     iceCandidateQueue := iceCandidateQueue st;
     iceCandidateTimers := iceCandidateTimers st;
     connected := connected st; timeouts := timeouts st;
     nextHandle := nextHandle st; now := now st; effects := effects st |}.

Definition setPendingRequests (f : list UserInfo → list UserInfo)
    (st : State) : State :=
  {| participants := participants st; peersRef := peersRef st;
     pendingRequests := f (pendingRequests st);
     connectionStatus := connectionStatus st;
     iceCandidateQueue := iceCandidateQueue st;
     iceCandidateTimers := iceCandidateTimers st;
     connected := connected st; timeouts := timeouts st;
     nextHandle := nextHandle st; now := now st; effects := effects st |}.

Definition setConnectionStatus (s : ConnectionStatus) (st : State) : State :=
  {| participants := participants st; peersRef := peersRef st;
     pendingRequests := pendingRequests st;
     connectionStatus := s;
     iceCandidateQueue := iceCandidateQueue st;
     iceCandidateTimers := iceCandidateTimers st;
     connected := connected st; timeouts := timeouts st;
     nextHandle := nextHandle st; now := now st; effects := effects st |}.

Definition setQueue
    (f : gmap string (list RTCIceCandidate) → gmap string (list RTCIceCandidate))
    (st : State) : State :=
  {| participants := participants st; peersRef := peersRef st;
     pendingRequests := pendingRequests st;
     connectionStatus := connectionStatus st;
     iceCandidateQueue := f (iceCandidateQueue st);
     iceCandidateTimers := iceCandidateTimers st;
     connected := connected st; timeouts := timeouts st;
     nextHandle := nextHandle st; now := now st; effects := effects st |}.

Definition setTimers (f : gmap string positive → gmap string positive)
    (st : State) : State :=
  {| participants := participants st; peersRef := peersRef st;
     pendingRequests := pendingRequests st;
     connectionStatus := connectionStatus st;
     iceCandidateQueue := iceCandidateQueue st;
     iceCandidateTimers := f (iceCandidateTimers st);
     connected := connected st; timeouts := timeouts st;
     nextHandle := nextHandle st; now := now st; effects := effects st |}.

Definition setConnected (b : bool) (st : State) : State :=
  {| participants := participants st; peersRef := peersRef st;
     pendingRequests := pendingRequests st;
     connectionStatus := connectionStatus st;
     iceCandidateQueue := iceCandidateQueue st;
     iceCandidateTimers := iceCandidateTimers st;
     connected := b; timeouts := timeouts st;
     nextHandle := nextHandle st; now := now st; effects := effects st |}.

Definition setTimeouts (f : list Timeout → list Timeout) (st : State) : State :=
  {| participants := participants st; peersRef := peersRef st;
     pendingRequests := pendingRequests st;
     connectionStatus := connectionStatus st;
     iceCandidateQueue := iceCandidateQueue st;
     iceCandidateTimers := iceCandidateTimers st;
     connected := connected st; timeouts := f (timeouts st);
     nextHandle := nextHandle st; now := now st; effects := effects st |}.

Definition setNextHandle (h : positive) (st : State) : State :=
  {| participants := participants st; peersRef := peersRef st;
     pendingRequests := pendingRequests st;
     connectionStatus := connectionStatus st;
     iceCandidateQueue := iceCandidateQueue st;
     iceCandidateTimers := iceCandidateTimers st;
     connected := connected st; timeouts := timeouts st;
     nextHandle := h; now := now st; effects := effects st |}.

Definition setNow (t : nat) (st : State) : State :=
  {| participants := participants st; peersRef := peersRef st;
     pendingRequests := pendingRequests st;
     connectionStatus := connectionStatus st;
     iceCandidateQueue := iceCandidateQueue st;
     iceCandidateTimers := iceCandidateTimers st;
     connected := connected st; timeouts := timeouts st;
     nextHandle := nextHandle st; now := t; effects := effects st |}.

(** Record one effect, stamped with the current time. *)
Definition perform (e : Effect) (st : State) : State :=
  {| participants := participants st; peersRef := peersRef st;
     pendingRequests := pendingRequests st;
     connectionStatus := connectionStatus st;
     iceCandidateQueue := iceCandidateQueue st;
     iceCandidateTimers := iceCandidateTimers st;
     connected := connected st; timeouts := timeouts st;
     nextHandle := nextHandle st; now := now st;
     effects := effects st ++ [(now st, e)] |}.

(** ** The socket and the timers *)

(** [socket.emit(event, payload)]. *)
Definition emit (m : OutMsg) (st : State) : State := perform (Emit m) st.

(** [playNotificationSound()]; a missing audio context is caught there. *)
Definition playNotificationSound (st : State) : State := perform PlaySound st.

(** [setTimeout(callback, ms)]: the callbacks of this hook are all the
    flush of one peer's queue, so a timer stores the peer it flushes. *)
Definition setTimeout (ms : nat) (k : string) (st : State) : positive * State :=
  let h := nextHandle st in
  (h, setNextHandle (Pos.succ h)
        (setTimeouts (λ ts, ts ++ [{| handle := h; deadline := now st + ms;
                                      key := k |}]) st)).

(** [clearTimeout(handle)]. *)
Definition clearTimeout (h : positive) (st : State) : State :=
  setTimeouts (List.filter (λ t, negb (Pos.eqb (handle t) h))) st.

(** ** The local media hook

    [src/features/video-call/hooks/useMediaStream.ts]. Tracks are objects
    the hook mutates and shares between [stream] and the two refs, so
    what it changes of a track, whether it is enabled and whether it was
    stopped, is kept per track id. What the browser answers to a request
    for media is an argument of the function that asks. *)

Module UseMediaStream.

Record Hook := {
  stream : option MediaStream;
  isMicOn : bool;
  isCameraOn : bool;
  isScreenSharing : bool;
  cameraStreamRef : option MediaStream;
  screenStreamRef : option MediaStream;
  disabled : gset string;
  stopped : gset string
}.

(** [useState] and [useRef] defaults. *)
Definition initial : Hook :=
  {| stream := None; isMicOn := true; isCameraOn := true;
     isScreenSharing := false; cameraStreamRef := None;
     screenStreamRef := None; disabled := ∅; stopped := ∅ |}.

Definition getAudioTracks (s : MediaStream) : list MediaStreamTrack :=
  List.filter (λ t, bool_decide (kind t = audio)) (getTracks s).

Definition getVideoTracks (s : MediaStream) : list MediaStreamTrack :=
  List.filter (λ t, bool_decide (kind t = video)) (getTracks s).

(** [track.enabled]. *)
Definition enabled (t : MediaStreamTrack) (h : Hook) : bool :=
  negb (bool_decide (trackId t ∈ disabled h)).

(** [stream.active]: some track of the stream has not ended. *)
Definition active (s : MediaStream) (h : Hook) : bool :=
  existsb (λ t, negb (bool_decide (trackId t ∈ stopped h))) (getTracks s).

(** [track.enabled = !track.enabled]. *)
Definition flip (t : MediaStreamTrack) (d : gset string) : gset string :=
  if bool_decide (trackId t ∈ d) then d ∖ {[trackId t]} else d ∪ {[trackId t]}.

(** [initializeMedia]; [granted] is what [getUserMedia] resolves with,
    [None] when it rejects, and is looked at only when no camera stream
    can be reused. The result is the stream returned, [None] when the
    error is thrown on. *)
Definition initializeMedia (granted : option MediaStream) (h : Hook)
    : Hook * option MediaStream :=
  let reusable := match cameraStreamRef h with
                  | Some c => if active c h then Some c else None
                  | None => None
                  end in
  match reusable with
  | Some c =>
      ({| stream := Some c; isMicOn := true; isCameraOn := true;
          isScreenSharing := isScreenSharing h;
          cameraStreamRef := cameraStreamRef h;
          screenStreamRef := screenStreamRef h;
          disabled := disabled h; stopped := stopped h |}, Some c)
  | None =>
      match granted with
      | Some mediaStream =>
          ({| stream := Some mediaStream; isMicOn := true; isCameraOn := true;
              isScreenSharing := isScreenSharing h;
              cameraStreamRef := Some mediaStream;
              screenStreamRef := screenStreamRef h;
              disabled := disabled h; stopped := stopped h |}, Some mediaStream)
      | None => (h, None)
      end
  end.

Definition toggleMic (h : Hook) : Hook :=
  match stream h with
  | Some s =>
      match head (getAudioTracks s) with
      | Some audioTrack =>
          let d := flip audioTrack (disabled h) in
          {| stream := stream h;
             isMicOn := negb (bool_decide (trackId audioTrack ∈ d));
             isCameraOn := isCameraOn h;
             isScreenSharing := isScreenSharing h;
             cameraStreamRef := cameraStreamRef h;
             screenStreamRef := screenStreamRef h;
             disabled := d; stopped := stopped h |}
      | None => h
      end
  | None => h
  end.

Definition toggleCamera (h : Hook) : Hook :=
  match stream h with
  | Some s =>
      match head (getVideoTracks s) with
      | Some videoTrack =>
          let d := flip videoTrack (disabled h) in
          {| stream := stream h; isMicOn := isMicOn h;
             isCameraOn := negb (bool_decide (trackId videoTrack ∈ d));
             isScreenSharing := isScreenSharing h;
             cameraStreamRef := cameraStreamRef h;
             screenStreamRef := screenStreamRef h;
             disabled := d; stopped := stopped h |}
      | None => h
      end
  | None => h
  end.

(** [startScreenShare]; [granted] is what [getDisplayMedia] resolves
    with. The ref and the flag are set before the first video track is
    touched; when the stream has none, setting [onended] on it throws,
    which the [catch] turns into a [null] result. *)
Definition startScreenShare (granted : option MediaStream) (h : Hook)
    : Hook * option MediaStream :=
  match granted with
  | Some screenStream =>
      let h' := {| stream := stream h; isMicOn := isMicOn h;
                   isCameraOn := isCameraOn h; isScreenSharing := true;
                   cameraStreamRef := cameraStreamRef h;
                   screenStreamRef := Some screenStream;
                   disabled := disabled h; stopped := stopped h |} in
      match head (getVideoTracks screenStream) with
      | Some _ => (h', Some screenStream)
      | None => (h', None)
      end
  | None => (h, None)
  end.

(** [stream.getTracks().forEach(track => track.stop())]. *)
Definition stopTracks (s : MediaStream) (ended : gset string) : gset string :=
  ended ∪ list_to_set (trackId <$> getTracks s).

Definition stopScreenShare (h : Hook) : Hook :=
  match screenStreamRef h with
  | Some s =>
      {| stream := stream h; isMicOn := isMicOn h; isCameraOn := isCameraOn h;
         isScreenSharing := false; cameraStreamRef := cameraStreamRef h;
         screenStreamRef := None;
         disabled := disabled h; stopped := stopTracks s (stopped h) |}
  | None =>
      {| stream := stream h; isMicOn := isMicOn h; isCameraOn := isCameraOn h;
         isScreenSharing := false; cameraStreamRef := cameraStreamRef h;
         screenStreamRef := None;
         disabled := disabled h; stopped := stopped h |}
  end.

(** [cameraStreamRef.current?.getVideoTracks()[0] || null]. *)
Definition getCameraVideoTrack (h : Hook) : option MediaStreamTrack :=
  match cameraStreamRef h with
  | Some c => head (getVideoTracks c)
  | None => None
  end.

End UseMediaStream.


(** ** The hook *)

Section Hook.

(** The props of [useWebRTC]; the effect that registers the handlers runs
    only once [localStream] is not null, and the handlers close over it. *)
Variable roomId : string.
Variable localUserName : string.
Variable localStream : MediaStream.

(** The participant every creation site builds:
    [{ id, name, stream: null, isMicOn: true, isCameraOn: true }]. *)
Definition newParticipant (uid uname : string) : Participant :=
  {| id := uid; name := uname; stream := None;
     isMicOn := true; isCameraOn := true |}.

(** The updater shared by the user-joined and offer handlers:
    [if (prev.some(p => p.id === uid)) return prev; return [...prev, new]]. *)
Definition addParticipant (uid uname : string) (prev : list Participant)
    : list Participant :=
  if Js.some (λ p, bool_decide (id p = uid)) prev then prev
  else prev ++ [newParticipant uid uname].

(** [createPeerConnection], up to its first [await]: nothing when the peer
    already has a connection; otherwise a new connection is stored under
    the peer id and gets one sender per track of [stream]; an initiator
    then asks the connection for an offer. *)
Definition createPeerConnection (uid uname : string) (isInitiator : bool)
    (str : MediaStream) (st : State) : State :=
  match peersRef st !! uid with
  | Some _ => st
  | None =>
      let pc := {| getSenders := (λ t, {| track := Some t |}) <$> getTracks str |} in
      let st := setPeers (<[uid := pc]>) (perform (PcNew uid) st) in
      if isInitiator then perform (PcCreateOffer uid) st else st
  end.

(** The rest of [createPeerConnection] for an initiator, once the offer
    is made and set as local description: it is sent to the peer. A
    failure before that is caught and logged, and nothing is sent. *)
Definition offerCreated (uid uname : string) (sdp : SessionDescription)
    (st : State) : State :=
  emit (Out_offer roomId uid sdp uname) st.

(** [pc.ontrack] of the connection made for [uid]. *)
Definition ontrack (uid : string) (streams : list MediaStream) (st : State)
    : State :=
  setParticipants
    (fmap (λ p, if bool_decide (id p = uid)
                then {| id := id p; name := name p; stream := head streams;
                        isMicOn := isMicOn p; isCameraOn := isCameraOn p |}
                else p)) st.

(** The timer callback armed by [pc.onicecandidate] for [uid]. *)
Definition flush (uid : string) (st : State) : State :=
  let candidates := default [] (iceCandidateQueue st !! uid) in
  let st :=
    if (0 <? length candidates)%nat then
      setQueue (delete uid)
        (foldl (λ s c, emit (Out_ice_candidate roomId uid c) s) st candidates)
    else st in
  setTimers (delete uid) st.

(** [pc.onicecandidate] of the connection made for [uid]; the event
    carries no candidate when gathering ends. *)
Definition onicecandidate (uid : string) (candidate : option RTCIceCandidate)
    (st : State) : State :=
  match candidate with
  | None => st
  | Some c =>
      let queue := default [] (iceCandidateQueue st !! uid) ++ [c] in
      let st := setQueue (<[uid := queue]>) st in
      let st := match iceCandidateTimers st !! uid with
                | Some existingTimer => clearTimeout existingTimer st
                | None => st
                end in
      let '(timer, st) := setTimeout 50 uid st in
      setTimers (<[uid := timer]>) st
  end.

(** [pc.getSenders().find(s => s.track?.kind === newTrack.kind)]: the
    sender found is a reference into the connection's senders, here its
    index. *)
Definition sameKind (newTrack : MediaStreamTrack) (s : RTCRtpSender) : bool :=
  match track s with
  | Some t => bool_decide (kind t = kind newTrack)
  | None => false
  end.

Definition findSender (newTrack : MediaStreamTrack) (pc : RTCPeerConnection)
    : option nat :=
  Js.find (sameKind newTrack) (getSenders pc).

(** [if (sender) sender.replaceTrack(newTrack)] on one connection. *)
Definition replaceIn (newTrack : MediaStreamTrack) (pc : RTCPeerConnection)
    : RTCPeerConnection :=
  match findSender newTrack pc with
  | Some i => {| getSenders := <[i := {| track := Some newTrack |}]> (getSenders pc) |}
  | None => pc
  end.

(** [replaceTrack]: [peersRef.current.forEach(pc => ...)]; a rejected
    replacement is caught and logged. *)
Definition replaceTrack (newTrack : MediaStreamTrack) (st : State) : State :=
  setPeers (fmap (replaceIn newTrack)) st.

Definition admitUser (uid : string) (st : State) : State :=
  setPendingRequests (List.filter (λ req, negb (bool_decide (userId req = uid))))
    (emit (Out_admit_user uid roomId) st).

Definition rejectUser (uid : string) (st : State) : State :=
  setPendingRequests (List.filter (λ req, negb (bool_decide (userId req = uid))))
    (emit (Out_reject_user uid roomId) st).

Definition toggleMediaStatus (k : TrackKind) (isOn : bool) (st : State) : State :=
  emit (Out_toggle_media roomId k isOn) st.

Definition emitScreenShareStatus (isSharing : bool) (st : State) : State :=
  emit (Out_screen_share_status roomId isSharing) st.

(** *** Handlers of inbound events *)

Definition on_waiting_for_approval (st : State) : State :=
  setConnectionStatus waiting st.

Definition on_join_approved (st : State) : State :=
  playNotificationSound (setConnectionStatus joined st).

Definition on_join_rejected (st : State) : State :=
  perform SocketDisconnect (setConnected false (setConnectionStatus rejected st)).

Definition on_join_request (data : UserInfo) (st : State) : State :=
  playNotificationSound (setPendingRequests (λ prev, prev ++ [data]) st).

Definition on_user_joined (data : UserInfo) (st : State) : State :=
  let st := playNotificationSound st in
  let st := setParticipants (addParticipant (userId data) (userName data)) st in
  createPeerConnection (userId data) (userName data) true localStream st.

Definition on_media_status_update (uid : string) (k : TrackKind) (isOn : bool)
    (st : State) : State :=
  setParticipants
    (fmap (λ p, if bool_decide (id p = uid)
                then match k with
                     | audio => {| id := id p; name := name p; stream := stream p;
                                   isMicOn := isOn; isCameraOn := isCameraOn p |}
                     | video => {| id := id p; name := name p; stream := stream p;
                                   isMicOn := isMicOn p; isCameraOn := isOn |}
                     end
                else p)) st.

(** The offer handler up to the point where it waits for the browser to
    apply the remote description. *)
Definition on_offer (from : string) (sdp : SessionDescription) (fromName : string)
    (st : State) : State :=
  let st := setParticipants (addParticipant from fromName) st in
  let st := match peersRef st !! from with
            | Some _ => st
            | None => createPeerConnection from fromName false localStream st
            end in
  match peersRef st !! from with
  | Some _ => perform (PcSetRemoteDescription from sdp) st
  | None => st
  end.

(** The rest of the offer handler, once the answer is made and set as
    local description. *)
Definition answerCreated (from : string) (sdp : SessionDescription) (st : State)
    : State :=
  emit (Out_answer roomId from sdp) st.

Definition on_answer (from : string) (sdp : SessionDescription) (st : State)
    : State :=
  match peersRef st !! from with
  | Some _ => perform (PcSetRemoteDescription from sdp) st
  | None => st
  end.

Definition on_ice_candidate (from : string) (candidate : RTCIceCandidate)
    (st : State) : State :=
  match peersRef st !! from with
  | Some _ => perform (PcAddIceCandidate from candidate) st
  | None => st
  end.

Definition on_user_left (data : UserInfo) (st : State) : State :=
  let st := match peersRef st !! userId data with
            | Some _ => setPeers (delete (userId data))
                          (perform (PcClose (userId data)) st)
            | None => st
            end in
  setParticipants
    (List.filter (λ p, negb (bool_decide (id p = userId data)))) st.

(** [users.filter((user, index, self) =>
       index === self.findIndex(u => u.userId === user.userId))]. *)
Definition uniqueUsers (users : list UserInfo) : list UserInfo :=
  Js.filter
    (λ user index self,
       Z.eqb index
         (Js.findIndex (λ u, bool_decide (userId u = userId user)) self))
    users.

Definition on_existing_users (users : list UserInfo) (st : State) : State :=
  setConnectionStatus joined
    (setParticipants
       (λ _, (λ u, newParticipant (userId u) (userName u)) <$> uniqueUsers users)
       st).

Definition handle_event (e : InEvent) (st : State) : State :=
  match e with
  | In_waiting_for_approval => on_waiting_for_approval st
  | In_join_approved => on_join_approved st
  | In_join_rejected => on_join_rejected st
  | In_join_request data => on_join_request data st
  | In_user_joined data => on_user_joined data st
  | In_media_status_update uid k isOn => on_media_status_update uid k isOn st
  | In_offer from sdp fromName => on_offer from sdp fromName st
  | In_answer from sdp => on_answer from sdp st
  | In_ice_candidate from c => on_ice_candidate from c st
  | In_user_left data => on_user_left data st
  | In_existing_users users => on_existing_users users st
  end.

(** A socket that was disconnected hands no event to its listeners. *)
Definition deliver (e : InEvent) (st : State) : State :=
  if connected st then handle_event e st else st.

(** *** The effect that joins the room *)

Definition initial : State :=
  {| participants := []; peersRef := ∅; pendingRequests := [];
     connectionStatus := connecting;
     iceCandidateQueue := ∅; iceCandidateTimers := ∅;
     connected := false; timeouts := []; nextHandle := 1%positive;
     now := 0; effects := [] |}.

(** [currentSocket.connect(); currentSocket.emit("join-room", ...)],
    after which the handlers above are registered. *)
Definition useEffect_mount (st : State) : State :=
  emit (Out_join_room roomId localUserName)
    (perform SocketConnect (setConnected true st)).

Definition mounted : State := useEffect_mount initial.

(** *** Time *)

(** The pending timer that expires first; among timers of one deadline,
    the one armed first. *)
Fixpoint earliest (ts : list Timeout) : option Timeout :=
  match ts with
  | [] => None
  | t :: rest =>
      match earliest rest with
      | Some u => if (deadline u <? deadline t)%nat then Some u else Some t
      | None => Some t
      end
  end.

Definition nextDue (until : nat) (ts : list Timeout) : option Timeout :=
  earliest (List.filter (λ t, (deadline t <=? until)%nat) ts).

(** The browser runs an expired timer: the clock stands at its deadline,
    the timer leaves the table, its callback runs. *)
Definition fire (t : Timeout) (st : State) : State :=
  flush (key t)
    (clearTimeout (handle t) (setNow (Nat.max (now st) (deadline t)) st)).

Fixpoint advance (fuel : nat) (until : nat) (st : State) : State :=
  match nextDue until (timeouts st) with
  | None => setNow (Nat.max (now st) until) st
  | Some t =>
      match fuel with
      | O => st
      | S fuel' => advance fuel' until (fire t st)
      end
  end.

(** [ms] milliseconds pass with no other event: every timer that expires
    in between runs, in order of expiry. A callback arms no timer, so one
    round per pending timer is enough. *)
Definition elapse (ms : nat) (st : State) : State :=
  advance (length (timeouts st)) (now st + ms) st.

(** *** Steps of the event loop *)

(** What happens on the client side: callbacks of a live connection,
    continuations of the two negotiations, the operations the hook
    returns to the user interface, and the passing of time. *)
Inductive Action :=
| OnTrack (peer : string) (streams : list MediaStream)
| OnIceCandidate (peer : string) (candidate : option RTCIceCandidate)
| OfferCreated (peer peerName : string) (sdp : SessionDescription)
| AnswerCreated (peer : string) (sdp : SessionDescription)
| ReplaceTrack (newTrack : MediaStreamTrack)
| AdmitUser (user : string)
| RejectUser (user : string)
| ToggleMediaStatus (k : TrackKind) (isOn : bool)
| EmitScreenShareStatus (isSharing : bool)
| Elapse (ms : nat).

Inductive Step :=
| Inbound (e : InEvent)
| Local (a : Action).

(** Only a connection that is still held raises [ontrack] and
    [onicecandidate]: a closed one is removed from [peersRef] at once. *)
Definition act (a : Action) (st : State) : State :=
  match a with
  | OnTrack peer streams =>
      if bool_decide (is_Some (peersRef st !! peer))
      then ontrack peer streams st else st
  | OnIceCandidate peer candidate =>
      if bool_decide (is_Some (peersRef st !! peer))
      then onicecandidate peer candidate st else st
  | OfferCreated peer peerName sdp => offerCreated peer peerName sdp st
  | AnswerCreated peer sdp => answerCreated peer sdp st
  | ReplaceTrack newTrack => replaceTrack newTrack st
  | AdmitUser user => admitUser user st
  | RejectUser user => rejectUser user st
  | ToggleMediaStatus k isOn => toggleMediaStatus k isOn st
  | EmitScreenShareStatus isSharing => emitScreenShareStatus isSharing st
  | Elapse ms => elapse ms st
  end.

Definition step (s : Step) (st : State) : State :=
  match s with
  | Inbound e => deliver e st
  | Local a => act a st
  end.

Definition run (steps : list Step) (st : State) : State :=
  foldl (λ s x, step x s) st steps.


(** ** Notions the properties are stated with *)

(** The moves of the status that go forward: staying, connecting to
    waiting, connecting or waiting to joined, and anything but rejected
    to rejected. *)
Definition forward (s s' : ConnectionStatus) : bool :=
  match s, s' with
  | connecting, _ => true
  | waiting, connecting => false
  | waiting, _ => true
  | joined, (joined | rejected) => true
  | joined, _ => false
  | rejected, rejected => true
  | rejected, _ => false
  end.

(** The ice-candidate messages among the effects, with the time each was
    sent at and the peer it went to. *)
Definition iceSent (l : list (nat * Effect)) : list (nat * string * RTCIceCandidate) :=
  omap (λ x, match x.2 with
             | Emit (Out_ice_candidate _ to c) => Some (x.1, to, c)
             | _ => None
             end) l.

(** Flush events: each run of messages sent to one peer at one instant,
    with the candidates it carried, in order. *)
Fixpoint batches (l : list (nat * string * RTCIceCandidate))
    : list (nat * string * list RTCIceCandidate) :=
  match l with
  | [] => []
  | (t, to, c) :: rest =>
      match batches rest with
      | (t', to', cs) :: more =>
          if bool_decide (t = t' ∧ to = to')
          then (t, to, c :: cs) :: more
          else (t, to, [c]) :: (t', to', cs) :: more
      | [] => [(t, to, [c])]
      end
  end.

Definition flushEvents (st : State) : list (nat * string * list RTCIceCandidate) :=
  batches (iceSent (effects st)).

(** Connections made for a peer and not closed since. *)
Definition opened (uid : string) (l : list (nat * Effect)) : nat :=
  length (List.filter (λ x, bool_decide (x.2 = PcNew uid)) l).

Definition closed (uid : string) (l : list (nat * Effect)) : nat :=
  length (List.filter (λ x, bool_decide (x.2 = PcClose uid)) l).

(** The connections made and the connections closed for a peer, with the
    connections held. *)
Definition pcCounts (uid : string) (st : State)
    : nat * nat * gmap string RTCPeerConnection :=
  (opened uid (effects st), closed uid (effects st), peersRef st).

(** A peer has one connection that was made and not closed when it is in
    [peersRef], and none otherwise. *)
Definition pcsInSync (st : State) : Prop :=
  ∀ uid, opened uid (effects st)
         = closed uid (effects st) + (if peersRef st !! uid is Some _ then 1 else 0).

(** The kinds of the tracks a connection sends, sender by sender. *)
Definition senderKinds (pc : RTCPeerConnection) : list (option TrackKind) :=
  (λ s, kind <$> track s) <$> getSenders pc.

(** Every connection held sends what [localStream] has: one sender per
    track, of the kind of that track. *)
Definition tracksAttached (st : State) : Prop :=
  ∀ uid pc, peersRef st !! uid = Some pc →
            senderKinds pc = (λ t, Some (kind t)) <$> getTracks localStream.

(** [iceCandidateTimers] mirrors the timer table: every pending timer is
    the one held for its peer, every handle held is pending, and no handle
    is handed out twice. *)
Definition timersInSync (st : State) : Prop :=
  (∀ t, t ∈ timeouts st →
        iceCandidateTimers st !! key t = Some (handle t)
        ∧ (handle t < nextHandle st)%positive)
  ∧ (∀ uid h, iceCandidateTimers st !! uid = Some h →
              ∃ t, t ∈ timeouts st ∧ key t = uid ∧ handle t = h)
  ∧ NoDup (handle <$> timeouts st).

(** The part of the state the timers live in. *)
Definition timerPart (st : State)
    : list Timeout * gmap string positive * positive :=
  (timeouts st, iceCandidateTimers st, nextHandle st).

(** ** Sample data *)

Definition camera : MediaStreamTrack := {| trackId := "camera"; kind := video |}.
Definition microphone : MediaStreamTrack := {| trackId := "mic"; kind := audio |}.
Definition screen : MediaStreamTrack := {| trackId := "screen"; kind := video |}.
Definition media : MediaStream :=
  {| streamId := "local"; getTracks := [microphone; camera] |}.
Definition alice : UserInfo := {| userId := "A"; userName := "Alice" |}.
Definition alice' : UserInfo := {| userId := "A"; userName := "Alice again" |}.
Definition bob : UserInfo := {| userId := "B"; userName := "Bob" |}.

(** Two connections are held: the one for A sends the microphone and the
    camera, the one for B the microphone only. *)
Definition twoConnections : State :=
  setPeers
    (λ _, <["A" := {| getSenders := [ {| track := Some microphone |};
                                      {| track := Some camera |} ] |}]>
            (<["B" := {| getSenders := [ {| track := Some microphone |} ] |}]> ∅))
    initial.

(** Bob joins; three candidates are gathered for his connection, at 0ms,
    10ms and 70ms; the run is observed until 200ms. *)
Definition threeCandidates : list Step :=
  [ Inbound (In_user_joined bob);
    Local (OnIceCandidate "B" (Some "C1")); Local (Elapse 10);
    Local (OnIceCandidate "B" (Some "C2")); Local (Elapse 60);
    Local (OnIceCandidate "B" (Some "C3")); Local (Elapse 130) ].

(** A projection of the state that the timer machinery does not touch. *)
Definition timerFree {X} (proj : State → X) : Prop :=
  (∀ m st, proj (emit m st) = proj st)
  ∧ (∀ f st, proj (setQueue f st) = proj st)
  ∧ (∀ f st, proj (setTimers f st) = proj st)
  ∧ (∀ f st, proj (setTimeouts f st) = proj st)
  ∧ (∀ t st, proj (setNow t st) = proj st)
  ∧ (∀ h st, proj (setNextHandle h st) = proj st).

(** A projection of the state that no handler but the timer machinery
    touches. *)
Definition handlerFree {X} (proj : State → X) : Prop :=
  (∀ e st, proj (perform e st) = proj st)
  ∧ (∀ f st, proj (setParticipants f st) = proj st)
  ∧ (∀ f st, proj (setPeers f st) = proj st)
  ∧ (∀ f st, proj (setPendingRequests f st) = proj st)
  ∧ (∀ s st, proj (setConnectionStatus s st) = proj st)
  ∧ (∀ b st, proj (setConnected b st) = proj st).

(** ** Notions for the further properties *)

(** The messages sent so far, in order. *)
Definition emitted (st : State) : list OutMsg :=
  omap (λ x, match x.2 with Emit m => Some m | _ => None end) (effects st).

(** The candidates sent to one peer, in the order sent. *)
Definition sentTo (uid : string) (l : list (nat * Effect)) : list RTCIceCandidate :=
  omap (λ x, if bool_decide (x.1.2 = uid) then Some x.2 else None) (iceSent l).

(** The candidates waiting in the queue of one peer. *)
Definition queued (uid : string) (st : State) : list RTCIceCandidate :=
  default [] (iceCandidateQueue st !! uid).

(** The candidates gathered for one peer along a run: those a connection
    held for the peer raised. *)
Fixpoint gathered (uid : string) (steps : list Step) (st : State)
    : list RTCIceCandidate :=
  match steps with
  | [] => []
  | s :: rest =>
      match s with
      | Local (OnIceCandidate peer (Some c)) =>
          if bool_decide (peer = uid ∧ is_Some (peersRef st !! peer))
          then [c] else []
      | _ => []
      end ++ gathered uid rest (step s st)
  end.

(** A projection of the state that changes only when a message is sent
    or the timer machinery runs. *)
Definition sendOnly {X} (proj : State → X) : Prop :=
  (∀ e st, (∀ m, e ≠ Emit m) → proj (perform e st) = proj st)
  ∧ (∀ f st, proj (setParticipants f st) = proj st)
  ∧ (∀ f st, proj (setPeers f st) = proj st)
  ∧ (∀ f st, proj (setPendingRequests f st) = proj st)
  ∧ (∀ s st, proj (setConnectionStatus s st) = proj st)
  ∧ (∀ b st, proj (setConnected b st) = proj st).

(** Every queue holds a candidate and has a timer pending, and no timer
    is due later than 50ms from now. *)
Definition queuesArmed (st : State) : Prop :=
  (∀ uid q, iceCandidateQueue st !! uid = Some q →
            q ≠ [] ∧ ∃ t, t ∈ timeouts st ∧ key t = uid)
  ∧ (∀ t, t ∈ timeouts st → deadline t ≤ now st + 50).

(** Every connection held sends the tracks of [localStream] themselves. *)
Definition sendersFresh (st : State) : Prop :=
  ∀ uid pc, peersRef st !! uid = Some pc →
            getSenders pc = (λ t, {| track := Some t |}) <$> getTracks localStream.

Definition isReplaceTrack (s : Step) : bool :=
  match s with
  | Local (ReplaceTrack _) => true
  | _ => false
  end.

(** ** Leaving the room *)

(** The events the effect subscribes to, in the order of its
    [currentSocket.on] calls, and the events its cleanup unsubscribes
    from, in the order of the [currentSocket.off] calls. *)
Definition subscribed : list string :=
  [ "waiting-for-approval"; "join-approved"; "join-rejected"; "join-request";
    "user-joined"; "media-status-update"; "offer"; "answer"; "ice-candidate";
    "user-left"; "existing-users" ].

Definition unsubscribed : list string :=
  [ "user-joined"; "offer"; "answer"; "ice-candidate"; "user-left";
    "existing-users"; "waiting-for-approval"; "join-approved"; "join-rejected";
    "join-request"; "media-status-update" ].

Definition eventName (e : InEvent) : string :=
  match e with
  | In_waiting_for_approval => "waiting-for-approval"
  | In_join_approved => "join-approved"
  | In_join_rejected => "join-rejected"
  | In_join_request _ => "join-request"
  | In_user_joined _ => "user-joined"
  | In_media_status_update _ _ _ => "media-status-update"
  | In_offer _ _ _ => "offer"
  | In_answer _ _ => "answer"
  | In_ice_candidate _ _ => "ice-candidate"
  | In_user_left _ => "user-left"
  | In_existing_users _ => "existing-users"
  end.

(** The hook across runs of its effect: the state above, the listeners
    registered on the socket (one entry per registration) and the
    leave-room messages sent, each with its time and room; leave-room is
    the one message only the cleanup sends and has this record of its
    own. *)
Record Session := {
  hookState : State;
  listeners : list string;
  leaveRooms : list (nat * string)
}.

(** [socket.on(ev, handler)] adds one listener. *)
Definition socket_on (ev : string) (s : Session) : Session :=
  {| hookState := hookState s; listeners := listeners s ++ [ev];
     leaveRooms := leaveRooms s |}.

(** [socket.off(ev)] removes every listener of the event. *)
Definition socket_off (ev : string) (s : Session) : Session :=
  {| hookState := hookState s;
     listeners := List.filter (λ x, negb (bool_decide (x = ev))) (listeners s);
     leaveRooms := leaveRooms s |}.

(** The body of the effect, for a [localStream] that is not null. *)
Definition useEffect_body (s : Session) : Session :=
  foldl (λ s ev, socket_on ev s)
    {| hookState := useEffect_mount (hookState s); listeners := listeners s;
       leaveRooms := leaveRooms s |}
    subscribed.

(** [peersRef.current.forEach(pc => pc.close()); peersRef.current.clear()].
    The connections are closed here in the order of the keys, in the
    source in the order they were stored. *)
Definition closeAll (st : State) : State :=
  setPeers (λ _, ∅)
    (foldl (λ st uid, perform (PcClose uid) st) st (map_to_list (peersRef st)).*1).

(** [iceCandidateTimers.current.forEach(timer => clearTimeout(timer))],
    then both maps are cleared. *)
Definition clearQueues (st : State) : State :=
  setQueue (λ _, ∅)
    (setTimers (λ _, ∅)
       (foldl (λ st h, clearTimeout h st) st (map_to_list (iceCandidateTimers st)).*2)).

(** The cleanup of the effect. *)
Definition useEffect_cleanup (s : Session) : Session :=
  let s := foldl (λ s ev, socket_off ev s) s unsubscribed in
  {| hookState := clearQueues (closeAll (hookState s));
     listeners := listeners s;
     leaveRooms := leaveRooms s ++ [(now (hookState s), roomId)] |}.

(** The socket hands an event to every listener registered for it. *)
Definition dispatch (e : InEvent) (s : Session) : Session :=
  if connected (hookState s) then
    {| hookState :=
         foldl (λ st _, handle_event e st) (hookState s)
           (List.filter (λ x, bool_decide (x = eventName e)) (listeners s));
       listeners := listeners s; leaveRooms := leaveRooms s |}
  else s.

(** A session of the component that has not run its effect yet. *)
Definition fresh : Session :=
  {| hookState := initial; listeners := []; leaveRooms := [] |}.

(** ** The hook across runs of its effect

    React keeps the state and the refs of the hook from one run of the
    effect to the next. It runs the effect again when [roomId],
    [userName] or [localStream] changes: first the cleanup the run
    before returned, if it returned one, then the body, which returns at
    once, with no cleanup, when [localStream] is null. The values the
    body runs with here are those of this section; the connection
    status, the socket and the listeners depend on none of them. *)
Record Component := {
  session : Session;
  hasCleanup : bool
}.

(** What happens to the component: the socket receives an event, one of
    the local actions above is done, or the component is rendered with a
    dependency of the effect changed, with or without a local stream. *)
Inductive Move :=
| Receive (e : InEvent)
| Perform (a : Action)
| Render (withStream : bool).

Definition onHook (f : State → State) (s : Session) : Session :=
  {| hookState := f (hookState s); listeners := listeners s;
     leaveRooms := leaveRooms s |}.

Definition render (withStream : bool) (c : Component) : Component :=
  let s := if hasCleanup c then useEffect_cleanup (session c) else session c in
  if withStream
  then {| session := useEffect_body s; hasCleanup := true |}
  else {| session := s; hasCleanup := false |}.

Definition turn (m : Move) (c : Component) : Component :=
  match m with
  | Receive e => {| session := dispatch e (session c); hasCleanup := hasCleanup c |}
  | Perform a => {| session := onHook (act a) (session c);
                    hasCleanup := hasCleanup c |}
  | Render withStream => render withStream c
  end.

Definition play (moves : list Move) (c : Component) : Component :=
  foldl (λ c m, turn m c) c moves.

(** The component before its effect has run. *)
Definition unmounted : Component := {| session := fresh; hasCleanup := false |}.

Definition status (c : Component) : ConnectionStatus :=
  connectionStatus (hookState (session c)).

Definition online (c : Component) : bool := connected (hookState (session c)).

(** ** The call screen

    The handlers of the [VideoCall] component that join the two hooks:
    the state of [useMediaStream] and the state of [useWebRTC]. *)

Record Call := { localMedia : UseMediaStream.Hook; webRTC : State }.

(** [toggleMic(); toggleMediaStatus('audio', !isMicOn)], with the
    [isMicOn] of the render the handler belongs to. *)
Definition handleMicToggle (c : Call) : Call :=
  {| localMedia := UseMediaStream.toggleMic (localMedia c);
     webRTC := toggleMediaStatus audio
              (negb (UseMediaStream.isMicOn (localMedia c))) (webRTC c) |}.

Definition handleCamToggle (c : Call) : Call :=
  {| localMedia := UseMediaStream.toggleCamera (localMedia c);
     webRTC := toggleMediaStatus video
              (negb (UseMediaStream.isCameraOn (localMedia c))) (webRTC c) |}.

(** Stop sharing and go back to the camera. The source writes this out
    twice: in the branch of [handleToggleScreenShare] taken while
    sharing, and as the [onended] handler it puts on the screen track,
    which replaces the one of [startScreenShare]. *)
Definition backToCamera (c : Call) : Call :=
  let m := UseMediaStream.stopScreenShare (localMedia c) in
  match UseMediaStream.getCameraVideoTrack m with
  | Some cameraVideoTrack =>
      {| localMedia := m;
         webRTC := emitScreenShareStatus false
                  (toggleMediaStatus video true
                     (replaceTrack cameraVideoTrack (webRTC c))) |}
  | None => {| localMedia := m; webRTC := webRTC c |}
  end.

(** The other branch, from the answer of [getDisplayMedia] on. A stream
    that [startScreenShare] returns has a video track. *)
Definition shareScreen (granted : option MediaStream) (c : Call) : Call :=
  let '(m, screenStream) := UseMediaStream.startScreenShare granted (localMedia c) in
  match screenStream with
  | Some s =>
      match head (UseMediaStream.getVideoTracks s) with
      | Some screenTrack =>
          {| localMedia := m;
             webRTC := emitScreenShareStatus true
                      (toggleMediaStatus video true
                         (replaceTrack screenTrack (webRTC c))) |}
      | None => {| localMedia := m; webRTC := webRTC c |}
      end
  | None => {| localMedia := m; webRTC := webRTC c |}
  end.

(** [handleToggleScreenShare], the browser answering at once. *)
Definition handleToggleScreenShare (granted : option MediaStream) (c : Call)
    : Call :=
  if UseMediaStream.isScreenSharing (localMedia c) then backToCamera c
  else shareScreen granted c.

(** ** More sample data *)

(** What [getDisplayMedia] grants: a stream with the screen track. *)
Definition display : MediaStream :=
  {| streamId := "display"; getTracks := [screen] |}.

(** The media hook once the browser granted camera and microphone. *)
Definition mediaReady : UseMediaStream.Hook :=
  (UseMediaStream.initializeMedia (Some media) UseMediaStream.initial).1.

(** * Properties *)

(** ** What the timer machinery leaves alone *)

Lemma timerFree_status : timerFree connectionStatus.
Proof. repeat split. Qed.

Lemma timerFree_connected : timerFree connected.
Proof. repeat split. Qed.

Lemma timerFree_participants : timerFree participants.
Proof. repeat split. Qed.

Lemma timerFree_peers : timerFree peersRef.
Proof. repeat split. Qed.

Lemma timerFree_pending : timerFree pendingRequests.
Proof. repeat split. Qed.

Section TimerFree.

Context {X : Type} (proj : State → X) (Hfree : timerFree proj).

Lemma emits_keep uid (cs : list RTCIceCandidate) st :
  proj (foldl (λ s c, emit (Out_ice_candidate roomId uid c) s) st cs) = proj st.
Proof.
  destruct Hfree as (Hp & _).
  revert st. induction cs as [|c cs IH]; intros st; simpl; [done|].
  rewrite IH. apply Hp.
Qed.

Lemma flush_keeps uid st : proj (flush uid st) = proj st.
Proof.
  pose proof Hfree as (Hp & Hq & Ht & _).
  unfold flush. rewrite Ht.
  destruct (0 <? length _)%nat; [|done].
  rewrite Hq. apply emits_keep.
Qed.

Lemma fire_keeps t st : proj (fire t st) = proj st.
Proof.
  pose proof Hfree as (_ & _ & _ & Hto & Hn & _).
  unfold fire, clearTimeout. by rewrite flush_keeps, Hto, Hn.
Qed.

Lemma advance_keeps fuel until st : proj (advance fuel until st) = proj st.
Proof.
  pose proof Hfree as (_ & _ & _ & _ & Hn & _).
  revert st. induction fuel as [|fuel IH]; intros st; simpl;
    destruct (nextDue until (timeouts st)); try done.
  by rewrite IH, fire_keeps.
Qed.

Lemma elapse_keeps ms st : proj (elapse ms st) = proj st.
Proof. apply advance_keeps. Qed.

Lemma onicecandidate_keeps uid c st : proj (onicecandidate uid c st) = proj st.
Proof.
  pose proof Hfree as (_ & Hq & Ht & Hto & _ & Hh).
  unfold onicecandidate. destruct c as [c|]; [|done].
  unfold setTimeout, clearTimeout. rewrite Ht, Hh, Hto.
  destruct (iceCandidateTimers _ !! uid); by rewrite ?Hto, Hq.
Qed.

End TimerFree.

(** ** The connection status *)

(** The status an inbound event leaves behind, whatever it was. *)
Lemma handle_event_status e st :
  connectionStatus (handle_event e st) =
  match e with
  | In_waiting_for_approval => waiting
  | In_join_approved | In_existing_users _ => joined
  | In_join_rejected => rejected
  | _ => connectionStatus st
  end.
Proof.
  destruct e; try reflexivity; simpl.
  - unfold on_user_joined, createPeerConnection.
    repeat case_match; reflexivity.
  - unfold on_offer, createPeerConnection. repeat case_match; reflexivity.
  - unfold on_answer. by case_match.
  - unfold on_ice_candidate. by case_match.
  - unfold on_user_left. by case_match.
Qed.

Lemma handle_event_connected e st :
  connected (handle_event e st) =
  match e with In_join_rejected => false | _ => connected st end.
Proof.
  destruct e; try reflexivity; simpl.
  - unfold on_user_joined, createPeerConnection.
    repeat case_match; reflexivity.
  - unfold on_offer, createPeerConnection. repeat case_match; reflexivity.
  - unfold on_answer. by case_match.
  - unfold on_ice_candidate. by case_match.
  - unfold on_user_left. by case_match.
Qed.

Lemma act_status a st : connectionStatus (act a st) = connectionStatus st.
Proof.
  destruct a; simpl; try reflexivity; try (case_bool_decide; try reflexivity).
  - apply (onicecandidate_keeps _ timerFree_status).
  - apply (elapse_keeps _ timerFree_status).
Qed.

Lemma act_connected a st : connected (act a st) = connected st.
Proof.
  destruct a; simpl; try reflexivity; try (case_bool_decide; try reflexivity).
  - apply (onicecandidate_keeps _ timerFree_connected).
  - apply (elapse_keeps _ timerFree_connected).
Qed.

Lemma run_app steps steps' st :
  run (steps ++ steps') st = run steps' (run steps st).
Proof. apply foldl_app. Qed.

Lemma run_snoc steps s st : run (steps ++ [s]) st = step s (run steps st).
Proof. by rewrite run_app. Qed.

(** ** Flushing a queue of candidates *)

Lemma emits_effects uid (cs : list RTCIceCandidate) st :
  effects (foldl (λ s c, emit (Out_ice_candidate roomId uid c) s) st cs)
  = effects st ++ ((λ c, (now st, Emit (Out_ice_candidate roomId uid c))) <$> cs).
Proof.
  revert st. induction cs as [|c cs IH]; intros st; simpl.
  - by rewrite app_nil_r.
  - rewrite IH. simpl. by rewrite <- app_assoc.
Qed.

Lemma emits_now uid (cs : list RTCIceCandidate) st :
  now (foldl (λ s c, emit (Out_ice_candidate roomId uid c) s) st cs) = now st.
Proof. revert st. induction cs as [|c cs IH]; intros st; simpl; [done|by rewrite IH]. Qed.

Lemma emits_queue uid (cs : list RTCIceCandidate) st :
  iceCandidateQueue (foldl (λ s c, emit (Out_ice_candidate roomId uid c) s) st cs)
  = iceCandidateQueue st.
Proof. revert st. induction cs as [|c cs IH]; intros st; simpl; [done|by rewrite IH]. Qed.

Lemma emits_timerPart uid (cs : list RTCIceCandidate) st :
  timerPart (foldl (λ s c, emit (Out_ice_candidate roomId uid c) s) st cs)
  = timerPart st.
Proof. revert st. induction cs as [|c cs IH]; intros st; simpl; [done|by rewrite IH]. Qed.

(** The timer callback sends the queued candidates one message each, in
    the order they were queued, and leaves nothing queued. *)
Lemma flush_effects uid st :
  effects (flush uid st)
  = effects st
    ++ ((λ c, (now st, Emit (Out_ice_candidate roomId uid c)))
        <$> default [] (iceCandidateQueue st !! uid)).
Proof.
  unfold flush. destruct (iceCandidateQueue st !! uid) as [[|c cs]|]; simpl;
    rewrite ?app_nil_r; try done.
  rewrite emits_effects. simpl. by rewrite <- app_assoc.
Qed.

Lemma flush_queue uid st :
  default [] (iceCandidateQueue (flush uid st) !! uid) = [].
Proof.
  unfold flush. destruct (iceCandidateQueue st !! uid) as [[|c cs]|] eqn:Hq; simpl.
  - by rewrite Hq.
  - by rewrite emits_queue, lookup_delete_eq.
  - by rewrite Hq.
Qed.

Lemma flush_queue_other uid uid' st :
  uid ≠ uid' →
  iceCandidateQueue (flush uid st) !! uid' = iceCandidateQueue st !! uid'.
Proof.
  intros Hne. unfold flush.
  destruct (iceCandidateQueue st !! uid) as [[|c cs]|] eqn:Hq; simpl; try done.
  by rewrite emits_queue, lookup_delete_ne.
Qed.

Lemma flush_timerPart uid st :
  timerPart (flush uid st)
  = (timeouts st, delete uid (iceCandidateTimers st), nextHandle st).
Proof.
  unfold flush.
  destruct (0 <? length _)%nat; unfold timerPart; simpl; [|done].
  pose proof (emits_timerPart uid (default [] (iceCandidateQueue st !! uid)) st) as H.
  unfold timerPart in H. injection H as -> -> ->. done.
Qed.

Lemma flush_timers uid st :
  iceCandidateTimers (flush uid st) = delete uid (iceCandidateTimers st).
Proof. exact (f_equal (λ x, x.1.2) (flush_timerPart uid st)). Qed.

Lemma flush_timeouts uid st : timeouts (flush uid st) = timeouts st.
Proof. exact (f_equal (λ x, x.1.1) (flush_timerPart uid st)). Qed.

Lemma flush_nextHandle uid st : nextHandle (flush uid st) = nextHandle st.
Proof. exact (f_equal (λ x, x.2) (flush_timerPart uid st)). Qed.

Lemma flush_now uid st : now (flush uid st) = now st.
Proof.
  unfold flush. destruct (0 <? length _)%nat; simpl; [|done]. apply emits_now.
Qed.

(** C3, as amended. When the quiet-period timer of a peer fires, every
    candidate queued for that peer is sent, each in a message of its own
    and in the order queued, so a queue of n candidates gives n messages;
    afterwards no candidate is queued for the peer and no timer is held
    for it. *)
Theorem fire_sends_each_candidate (t : Timeout) (st : State) :
  let queued := default [] (iceCandidateQueue st !! key t) in
  let st' := fire t st in
  effects st'
  = effects st
    ++ ((λ c, (Nat.max (now st) (deadline t),
               Emit (Out_ice_candidate roomId (key t) c))) <$> queued)
  ∧ length (effects st') = length (effects st) + length queued
  ∧ default [] (iceCandidateQueue st' !! key t) = []
  ∧ iceCandidateTimers st' !! key t = None.
Proof.
  intros queued st'. subst st' queued. unfold fire.
  assert (He : effects (fire t st) = effects st
    ++ ((λ c, (Nat.max (now st) (deadline t),
               Emit (Out_ice_candidate roomId (key t) c)))
        <$> default [] (iceCandidateQueue st !! key t))).
  { unfold fire. by rewrite flush_effects. }
  unfold fire in He. split; [done|]. split.
  { by rewrite He, length_app, length_fmap. }
  split; [apply flush_queue|].
  rewrite flush_timers. apply lookup_delete_eq.
Qed.

(** ** What the handlers leave alone *)

Section HandlerFree.

Context {X : Type} (proj : State → X) (Hfree : handlerFree proj).

Lemma createPeerConnection_keeps uid uname init str st :
  proj (createPeerConnection uid uname init str st) = proj st.
Proof.
  destruct Hfree as (Hp & _ & Hpeers & _).
  unfold createPeerConnection. repeat case_match; by rewrite ?Hp, ?Hpeers, ?Hp.
Qed.

Lemma handle_event_keeps e st : proj (handle_event e st) = proj st.
Proof.
  pose proof Hfree as (Hp & Hpart & Hpeers & Hpend & Hs & Hc).
  destruct e; simpl.
  - apply Hs.
  - unfold on_join_approved, playNotificationSound. by rewrite Hp, Hs.
  - unfold on_join_rejected. by rewrite Hp, Hc, Hs.
  - unfold on_join_request, playNotificationSound. by rewrite Hp, Hpend.
  - unfold on_user_joined, playNotificationSound.
    by rewrite createPeerConnection_keeps, Hpart, Hp.
  - apply Hpart.
  - unfold on_offer.
    repeat case_match; by rewrite ?Hp, ?createPeerConnection_keeps, ?Hpart.
  - unfold on_answer. case_match; by rewrite ?Hp.
  - unfold on_ice_candidate. case_match; by rewrite ?Hp.
  - unfold on_user_left. rewrite Hpart. case_match; by rewrite ?Hpeers, ?Hp.
  - unfold on_existing_users. by rewrite Hs, Hpart.
Qed.

Lemma deliver_keeps e st : proj (deliver e st) = proj st.
Proof. unfold deliver. case_match; [apply handle_event_keeps|done]. Qed.

End HandlerFree.

Lemma handlerFree_timerPart : handlerFree timerPart.
Proof. repeat split. Qed.

Lemma handlerFree_queue : handlerFree iceCandidateQueue.
Proof. repeat split. Qed.

Lemma handlerFree_now : handlerFree now.
Proof. repeat split. Qed.

(** ** The timer table and [iceCandidateTimers] agree *)

Lemma timersInSync_ext st st' :
  timerPart st = timerPart st' → timersInSync st → timersInSync st'.
Proof.
  unfold timerPart, timersInSync. intros [= H1 H2 H3].
  by rewrite H1, H2, H3.
Qed.

Lemma earliest_elem ts t : earliest ts = Some t → t ∈ ts.
Proof.
  revert t. induction ts as [|u ts IH]; intros t; simpl; [done|].
  destruct (earliest ts) as [v|].
  - case_match; intros [= <-]; [right; by apply IH|left].
  - intros [= <-]. left.
Qed.

Lemma earliest_least ts t u :
  earliest ts = Some t → u ∈ ts → deadline t ≤ deadline u.
Proof.
  revert t. induction ts as [|x ts IH]; intros t; simpl; [done|].
  intros Ht Hu. destruct (earliest ts) as [v|] eqn:Hv.
  - specialize (IH v eq_refl).
    destruct (deadline v <? deadline x)%nat eqn:Hlt; injection Ht as <-;
      [apply Nat.ltb_lt in Hlt|apply Nat.ltb_ge in Hlt];
      apply elem_of_cons in Hu as [->|Hu]; try lia;
      specialize (IH Hu); lia.
  - injection Ht as <-. apply elem_of_cons in Hu as [->|Hu]; [done|].
    destruct ts; [by apply elem_of_nil in Hu|simpl in Hv; repeat case_match; done].
Qed.

Lemma earliest_None ts : earliest ts = None → ts = [].
Proof. destruct ts; simpl; [done|]. repeat case_match; done. Qed.

Lemma nextDue_elem until ts t :
  nextDue until ts = Some t → t ∈ ts ∧ deadline t ≤ until.
Proof.
  unfold nextDue. intros H. apply earliest_elem in H.
  apply list_elem_of_In, filter_In in H as [H1 H2].
  split; [by apply list_elem_of_In|by apply Nat.leb_le].
Qed.

Lemma nextDue_None until ts t :
  nextDue until ts = None → t ∈ ts → until < deadline t.
Proof.
  unfold nextDue. intros H Ht. apply earliest_None in H.
  destruct (Nat.leb_spec (deadline t) until) as [Hle|]; [|done].
  assert (Hin : In t (List.filter (λ t, (deadline t <=? until)%nat) ts)).
  { apply filter_In. split; [by apply list_elem_of_In|by apply Nat.leb_le]. }
  rewrite H in Hin. destruct Hin.
Qed.

Lemma elem_of_clear (h : positive) (ts : list Timeout) t :
  t ∈ List.filter (λ t, negb (Pos.eqb (handle t) h)) ts ↔ t ∈ ts ∧ handle t ≠ h.
Proof.
  rewrite !list_elem_of_In, filter_In.
  destruct (Pos.eqb_spec (handle t) h); simpl; split; intros [? ?]; try done.
  all: split; congruence.
Qed.

Lemma NoDup_kept (f : Timeout → bool) (ts : list Timeout) :
  NoDup (handle <$> ts) → NoDup (handle <$> List.filter f ts).
Proof.
  induction ts as [|t ts IH]; simpl; [done|].
  rewrite NoDup_cons. intros [Hnotin Hnd].
  destruct (f t); simpl; [|by apply IH].
  apply NoDup_cons. split; [|by apply IH].
  intros Hin. apply Hnotin.
  apply list_elem_of_fmap in Hin as (u & -> & Hu).
  apply list_elem_of_In, filter_In in Hu as [Hu _].
  apply list_elem_of_fmap. exists u. split; [done|by apply list_elem_of_In].
Qed.

Lemma handle_inj st t u :
  timersInSync st → t ∈ timeouts st → u ∈ timeouts st →
  handle t = handle u → t = u.
Proof.
  intros (_ & _ & Hnd) Ht Hu Hh.
  apply list_elem_of_lookup in Ht as [i Hi], Hu as [j Hj].
  assert (i = j) as ->; [|congruence].
  eapply NoDup_lookup; [exact Hnd| |]; rewrite list_lookup_fmap.
  - by rewrite Hi.
  - rewrite Hj. simpl. by rewrite Hh.
Qed.

Lemma fire_timersInSync t st :
  timersInSync st → t ∈ timeouts st → timersInSync (fire t st).
Proof.
  intros Hsync Ht. pose proof Hsync as (H1 & H2 & H3).
  unfold timersInSync, fire.
  rewrite flush_timers, flush_timeouts, flush_nextHandle. simpl.
  split; [|split].
  - intros u Hu. apply elem_of_clear in Hu as [Hu Hne].
    destruct (H1 u Hu) as [Hk Hlt]. split; [|done].
    rewrite lookup_delete_ne; [done|].
    intros Hkey. apply Hne.
    destruct (H1 t Ht) as [Hkt _]. rewrite Hkey, Hk in Hkt. congruence.
  - intros uid h Hl.
    apply lookup_delete_Some in Hl as [Hne Hl].
    destruct (H2 uid h Hl) as (u & Hu & Hk & Hh).
    exists u. split; [|done]. apply elem_of_clear. split; [done|].
    intros Heq. apply Hne.
    by rewrite <- (handle_inj st u t Hsync Hu Ht Heq).
  - by apply NoDup_kept.
Qed.

Lemma advance_timersInSync fuel until st :
  timersInSync st → timersInSync (advance fuel until st).
Proof.
  revert st. induction fuel as [|fuel IH]; intros st Hs; simpl;
    destruct (nextDue until (timeouts st)) as [t|] eqn:Hd; try done.
  apply IH, fire_timersInSync; [done|]. by apply nextDue_elem in Hd as [? _].
Qed.

(** ** Debouncing *)

Lemma filter_all {A} (f : A → bool) (l : list A) :
  (∀ a, a ∈ l → f a = true) → List.filter f l = l.
Proof.
  induction l as [|a l IH]; intros H; simpl; [done|].
  rewrite (H a) by left. f_equal. apply IH. intros b Hb. apply H. by right.
Qed.

(** A new candidate is queued behind the others, nothing is sent yet,
    every timer armed for the peer before is cancelled and one timer of
    50ms is armed. *)
Lemma onicecandidate_rearm uid c st :
  timersInSync st →
  let st' := onicecandidate uid (Some c) st in
  timeouts st'
  = List.filter (λ t, negb (bool_decide (key t = uid))) (timeouts st)
    ++ [{| handle := nextHandle st; deadline := now st + 50; key := uid |}]
  ∧ iceCandidateTimers st' = <[uid := nextHandle st]> (iceCandidateTimers st)
  ∧ iceCandidateQueue st'
    = <[uid := default [] (iceCandidateQueue st !! uid) ++ [c]]> (iceCandidateQueue st)
  ∧ effects st' = effects st
  ∧ now st' = now st
  ∧ nextHandle st' = Pos.succ (nextHandle st).
Proof.
  intros Hsync. pose proof Hsync as (H1 & H2 & H3). simpl.
  unfold onicecandidate. simpl.
  destruct (iceCandidateTimers st !! uid) as [h|] eqn:Hh; simpl;
    (split; [|done]); f_equal.
  - apply filter_ext_in. intros u Hu. apply list_elem_of_In in Hu.
    destruct (H1 u Hu) as [Hl _]. f_equal.
    destruct (Pos.eqb_spec (handle u) h) as [Heq|Hne]; case_bool_decide as Hk;
      try done.
    + destruct (H2 uid h Hh) as (v & Hv & Hkv & Hhv).
      destruct Hk. rewrite <- Hkv. f_equal.
      apply (handle_inj st u v Hsync Hu Hv). congruence.
    + rewrite Hk, Hh in Hl. congruence.
  - symmetry. apply filter_all. intros u Hu.
    destruct (H1 u Hu) as [Hl _]. case_bool_decide as Hk; [|done].
    rewrite Hk, Hh in Hl. congruence.
Qed.

Lemma onicecandidate_timersInSync uid c st :
  timersInSync st → timersInSync (onicecandidate uid c st).
Proof.
  intros Hsync. destruct c as [c|]; [|done].
  destruct (onicecandidate_rearm uid c st Hsync)
    as (Hto & Htim & _ & _ & _ & Hnext).
  destruct Hsync as (H1 & H2 & H3).
  unfold timersInSync. rewrite Hto, Htim, Hnext.
  assert (Hkept : ∀ u,
    u ∈ List.filter (λ t, negb (bool_decide (key t = uid))) (timeouts st) →
    u ∈ timeouts st ∧ key u ≠ uid).
  { intros u Hu. apply list_elem_of_In, filter_In in Hu as [Hu Hk].
    split; [by apply list_elem_of_In|].
    by apply negb_true_iff, bool_decide_eq_false in Hk. }
  split; [|split].
  - intros u Hu. apply elem_of_app in Hu as [Hu|Hu].
    + apply Hkept in Hu as [Hu Hne]. destruct (H1 u Hu) as [Hl Hlt].
      rewrite lookup_insert_ne; [|done]. split; [done|lia].
    + apply list_elem_of_singleton in Hu as ->. simpl.
      rewrite lookup_insert_eq. split; [done|lia].
  - intros uid' h Hl. destruct (decide (uid = uid')) as [<-|Hne].
    + rewrite lookup_insert_eq in Hl. injection Hl as <-.
      eexists. split; [apply elem_of_app; right; by apply list_elem_of_singleton|done].
    + rewrite lookup_insert_ne in Hl; [|done].
      destruct (H2 uid' h Hl) as (u & Hu & Hk & Hh).
      exists u. split; [|done]. apply elem_of_app. left.
      apply list_elem_of_In, filter_In. split; [by apply list_elem_of_In|].
      apply negb_true_iff, bool_decide_eq_false_2. congruence.
  - rewrite fmap_app. apply NoDup_app. split; [by apply NoDup_kept|]. split.
    + intros h Hh Hh'. simpl in Hh'. apply list_elem_of_singleton in Hh' as ->.
      apply list_elem_of_fmap in Hh as (u & Hu1 & Hu2).
      apply Hkept in Hu2 as [Hu2 _]. destruct (H1 u Hu2) as [_ Hlt]. lia.
    + simpl. apply NoDup_singleton.
Qed.

Lemma act_timersInSync a st : timersInSync st → timersInSync (act a st).
Proof.
  intros Hs. destruct a; simpl; try done; try (case_bool_decide; try done).
  - by apply onicecandidate_timersInSync.
  - by apply advance_timersInSync.
Qed.

Lemma step_timersInSync s st : timersInSync st → timersInSync (step s st).
Proof.
  destruct s as [e|a]; simpl; [|apply act_timersInSync].
  apply timersInSync_ext. symmetry.
  apply (deliver_keeps _ handlerFree_timerPart).
Qed.

Lemma run_timersInSync steps : timersInSync (run steps mounted).
Proof.
  induction steps as [|s steps IH] using rev_ind.
  - split; [|split]; simpl.
    + intros t Ht. by apply elem_of_nil in Ht.
    + intros uid h Hl. by rewrite lookup_empty in Hl.
    + apply NoDup_nil_2.
  - rewrite run_snoc. by apply step_timersInSync.
Qed.

Lemma length_clear_lt (t : Timeout) (ts : list Timeout) :
  t ∈ ts →
  length (List.filter (λ u, negb (Pos.eqb (handle u) (handle t))) ts) < length ts.
Proof.
  induction ts as [|u ts IH]; intros Ht; [by apply elem_of_nil in Ht|].
  simpl. apply elem_of_cons in Ht as [<-|Ht].
  - rewrite Pos.eqb_refl. simpl.
    pose proof (filter_length_le (λ u, negb (Pos.eqb (handle u) (handle t))) ts).
    lia.
  - specialize (IH Ht). destruct (negb _); simpl; lia.
Qed.

(** The fuel [elapse] gives itself is enough: it ends at the time asked
    for, and no timer that was due by then is left pending. *)
Lemma advance_complete fuel until st :
  length (timeouts st) ≤ fuel → now st ≤ until →
  now (advance fuel until st) = until
  ∧ ∀ t, t ∈ timeouts (advance fuel until st) → until < deadline t.
Proof.
  revert st. induction fuel as [|fuel IH]; intros st Hlen Hnow; simpl;
    destruct (nextDue until (timeouts st)) as [t|] eqn:Hd.
  - apply nextDue_elem in Hd as [Ht _].
    destruct (timeouts st); [by apply elem_of_nil in Ht|simpl in Hlen; lia].
  - simpl. split; [lia|]. intros t Ht. by eapply nextDue_None.
  - apply nextDue_elem in Hd as [Ht Hle]. apply IH.
    + unfold fire. rewrite flush_timeouts. simpl.
      pose proof (length_clear_lt t (timeouts st) Ht). lia.
    + unfold fire. rewrite flush_now. simpl. lia.
  - simpl. split; [lia|]. intros t Ht. by eapply nextDue_None.
Qed.

Lemma iceSent_emits (t : nat) (room uid : string) (cs : list RTCIceCandidate) :
  iceSent ((λ c, (t, Emit (Out_ice_candidate room uid c))) <$> cs)
  = (λ c, (t, uid, c)) <$> cs.
Proof. induction cs as [|c cs IH]; simpl; [done|]. f_equal. apply IH. Qed.

Lemma iceSent_app l l' : iceSent (l ++ l') = iceSent l ++ iceSent l'.
Proof. apply omap_app. Qed.

(** C4. Candidate batching is a debounce per peer. At every state the
    event loop reaches, a candidate gathered for a peer is queued behind
    the peer's other candidates, sends nothing, cancels the timer armed
    for that peer and arms one 50ms ahead, leaving the timers of other
    peers alone. Letting time pass runs every timer that expires; a timer
    that expires sends every candidate queued for its peer and leaves the
    queue and the timer slot of the peer empty. For candidates C1 at 0ms,
    C2 at 10ms and C3 at 70ms for one peer there are exactly two flushes:
    C1 and C2 at 60ms, C3 at 120ms; nothing is sent before 60ms. *)
Theorem ice_candidates_debounced :
  (∀ steps uid c,
     let st := run steps mounted in
     let st' := onicecandidate uid (Some c) st in
     iceCandidateQueue st' !! uid
     = Some (default [] (iceCandidateQueue st !! uid) ++ [c])
     ∧ effects st' = effects st
     ∧ timeouts st'
       = List.filter (λ t, negb (bool_decide (key t = uid))) (timeouts st)
         ++ [{| handle := nextHandle st; deadline := now st + 50; key := uid |}]
     ∧ iceCandidateTimers st' !! uid = Some (nextHandle st))
  ∧ (∀ steps ms,
       let st := run steps mounted in
       now (elapse ms st) = now st + ms
       ∧ ∀ t, t ∈ timeouts (elapse ms st) → now st + ms < deadline t)
  ∧ (∀ t st,
       iceSent (effects (fire t st))
       = iceSent (effects st)
         ++ ((λ c, (Nat.max (now st) (deadline t), key t, c))
             <$> default [] (iceCandidateQueue st !! key t))
       ∧ default [] (iceCandidateQueue (fire t st) !! key t) = []
       ∧ iceCandidateTimers (fire t st) !! key t = None)
  ∧ flushEvents (run threeCandidates mounted)
    = [(60, "B", ["C1"; "C2"]); (120, "B", ["C3"])]
  ∧ flushEvents (run (take 4 threeCandidates ++ [Local (Elapse 49)]) mounted) = [].
Proof.
  split; [|split; [|split; [|split]]].
  - intros steps uid c st st'.
    destruct (onicecandidate_rearm uid c st (run_timersInSync steps))
      as (Hto & Htim & Hq & He & _).
    subst st'. rewrite Hq, Htim, !lookup_insert_eq. done.
  - intros steps ms st. apply advance_complete; lia.
  - intros t st. unfold fire. rewrite flush_effects, flush_queue, flush_timers.
    simpl. split; [|split; [done|apply lookup_delete_eq]].
    by rewrite iceSent_app, iceSent_emits.
  - vm_compute. reflexivity.
  - vm_compute. reflexivity.
Qed.

(** ** One connection per peer *)

Lemma opened_snoc uid l t e :
  opened uid (l ++ [(t, e)])
  = opened uid l + (if bool_decide (e = PcNew uid) then 1 else 0).
Proof.
  unfold opened. rewrite List.filter_app, length_app. simpl.
  by case_bool_decide.
Qed.

Lemma closed_snoc uid l t e :
  closed uid (l ++ [(t, e)])
  = closed uid l + (if bool_decide (e = PcClose uid) then 1 else 0).
Proof.
  unfold closed. rewrite List.filter_app, length_app. simpl.
  by case_bool_decide.
Qed.

Lemma timerFree_pcCounts uid : timerFree (pcCounts uid).
Proof.
  repeat split. intros m st. unfold pcCounts. simpl.
  rewrite opened_snoc, closed_snoc.
  rewrite !bool_decide_eq_false_2 by done. by rewrite !Nat.add_0_r.
Qed.

Lemma pcsInSync_ext st st' :
  (∀ uid, pcCounts uid st' = pcCounts uid st) → pcsInSync st → pcsInSync st'.
Proof.
  intros H Hs uid. specialize (H uid). unfold pcCounts in H.
  injection H as -> -> ->. apply Hs.
Qed.

Lemma pcsInSync_perform e st :
  (∀ uid, e ≠ PcNew uid) → (∀ uid, e ≠ PcClose uid) →
  pcsInSync st → pcsInSync (perform e st).
Proof.
  intros Hn Hc. apply pcsInSync_ext. intros uid. unfold pcCounts. simpl.
  rewrite opened_snoc, closed_snoc.
  rewrite !bool_decide_eq_false_2 by done. by rewrite !Nat.add_0_r.
Qed.

Lemma createPeerConnection_pcsInSync uid uname init str st :
  pcsInSync st → pcsInSync (createPeerConnection uid uname init str st).
Proof.
  intros Hs. unfold createPeerConnection.
  destruct (peersRef st !! uid) eqn:Hl; [done|].
  assert (Hnew : pcsInSync
    (setPeers (<[uid := {| getSenders := (λ t, {| track := Some t |}) <$> getTracks str |}]>)
       (perform (PcNew uid) st))).
  { intros uid'. simpl. rewrite opened_snoc, closed_snoc.
    rewrite (bool_decide_eq_false_2 (PcNew uid = PcClose uid')) by done.
    specialize (Hs uid'). destruct (decide (uid = uid')) as [<-|Hne].
    - rewrite lookup_insert_eq, bool_decide_eq_true_2 by done.
      rewrite Hl in Hs. lia.
    - rewrite lookup_insert_ne by done.
      rewrite bool_decide_eq_false_2 by congruence. lia. }
  destruct init; [|done]. by apply pcsInSync_perform.
Qed.

Lemma on_user_left_pcsInSync data st :
  pcsInSync st → pcsInSync (on_user_left data st).
Proof.
  intros Hs. unfold on_user_left.
  destruct (peersRef st !! userId data) eqn:Hl; [|done].
  intros uid. simpl. rewrite opened_snoc, closed_snoc.
  rewrite (bool_decide_eq_false_2 (PcClose (userId data) = PcNew uid)) by done.
  specialize (Hs uid). destruct (decide (userId data = uid)) as [<-|Hne].
  - rewrite lookup_delete_eq, bool_decide_eq_true_2 by done.
    rewrite Hl in Hs. lia.
  - rewrite lookup_delete_ne by done.
    rewrite bool_decide_eq_false_2 by congruence. lia.
Qed.

Lemma handle_event_pcsInSync e st :
  pcsInSync st → pcsInSync (handle_event e st).
Proof.
  intros Hs. destruct e; simpl; try done.
  - by apply pcsInSync_perform.
  - by apply pcsInSync_perform.
  - by apply pcsInSync_perform.
  - unfold on_user_joined.
    by apply createPeerConnection_pcsInSync, pcsInSync_perform.
  - unfold on_offer.
    set (st1 := setParticipants (addParticipant from fromName) st).
    assert (H1 : pcsInSync st1) by done.
    set (st2 := match peersRef st1 !! from with
                | Some _ => st1
                | None => createPeerConnection from fromName false localStream st1
                end).
    assert (H2 : pcsInSync st2).
    { subst st2. case_match; [done|by apply createPeerConnection_pcsInSync]. }
    case_match; [by apply pcsInSync_perform|done].
  - unfold on_answer. case_match; [by apply pcsInSync_perform|done].
  - unfold on_ice_candidate. case_match; [by apply pcsInSync_perform|done].
  - by apply on_user_left_pcsInSync.
Qed.

Lemma act_pcsInSync a st : pcsInSync st → pcsInSync (act a st).
Proof.
  intros Hs. destruct a; simpl; try (case_bool_decide; try done).
  - apply (pcsInSync_ext st); [|done]. intros uid.
    apply (onicecandidate_keeps _ (timerFree_pcCounts uid)).
  - by apply pcsInSync_perform.
  - by apply pcsInSync_perform.
  - intros uid. simpl. rewrite lookup_fmap. specialize (Hs uid).
    by destruct (peersRef st !! uid).
  - apply (pcsInSync_ext (emit (Out_admit_user user roomId) st)); [done|].
    by apply pcsInSync_perform.
  - apply (pcsInSync_ext (emit (Out_reject_user user roomId) st)); [done|].
    by apply pcsInSync_perform.
  - by apply pcsInSync_perform.
  - by apply pcsInSync_perform.
  - apply (pcsInSync_ext st); [|done]. intros uid.
    apply (elapse_keeps _ (timerFree_pcCounts uid)).
Qed.

Lemma run_pcsInSync steps : pcsInSync (run steps mounted).
Proof.
  induction steps as [|s steps IH] using rev_ind; [by intros uid|].
  rewrite run_snoc. destruct s as [e|a]; simpl.
  - unfold deliver. case_match; [by apply handle_event_pcsInSync|done].
  - by apply act_pcsInSync.
Qed.

Lemma find_Some {A} (p : A → bool) (l : list A) (i : nat) :
  Js.find p l = Some i →
  ∃ x, l !! i = Some x ∧ p x = true
       ∧ ∀ j y, j < i → l !! j = Some y → p y = false.
Proof.
  revert i. induction l as [|a l IH]; intros i; simpl; [done|].
  destruct (p a) eqn:Hp.
  - intros [= <-]. exists a. repeat split; [done|]. intros j y Hj. lia.
  - intros H. apply fmap_Some in H as (i' & Hi' & ->).
    destruct (IH i' Hi') as (x & Hx & Hpx & Hbefore).
    exists x. repeat split; [done..|].
    intros [|j] y Hj; simpl; [by intros [= <-]|].
    apply Hbefore. lia.
Qed.

Lemma find_None {A} (p : A → bool) (l : list A) :
  Js.find p l = None ↔ ∀ x, x ∈ l → p x = false.
Proof.
  induction l as [|a l IH]; simpl.
  - split; [|done]. intros _ x Hx. by apply elem_of_nil in Hx.
  - destruct (p a) eqn:Hp.
    + split; [done|]. intros H. specialize (H a). rewrite Hp in H.
      discriminate H. left.
    + rewrite fmap_None, IH. split.
      * intros H x Hx. apply elem_of_cons in Hx as [->|Hx]; auto.
      * intros H x Hx. apply H. by right.
Qed.

(** Replacing a track leaves the kinds a connection sends as they were. *)
Lemma replaceIn_kinds newTrack pc :
  senderKinds (replaceIn newTrack pc) = senderKinds pc.
Proof.
  unfold replaceIn, findSender.
  destruct (Js.find _ _) as [i|] eqn:Hf; [|done].
  apply find_Some in Hf as (s & Hs & Hk & _).
  unfold senderKinds. simpl. rewrite list_fmap_insert. simpl.
  apply list_insert_id. rewrite list_lookup_fmap, Hs. simpl.
  unfold sameKind in Hk. destruct (track s) as [t|]; [|done].
  case_bool_decide; [|done]. simpl. congruence.
Qed.

Lemma createPeerConnection_peers uid uname init str st :
  peersRef (createPeerConnection uid uname init str st)
  = match peersRef st !! uid with
    | Some _ => peersRef st
    | None =>
        <[uid := {| getSenders := (λ t, {| track := Some t |}) <$> getTracks str |}]>
          (peersRef st)
    end.
Proof. unfold createPeerConnection. by repeat case_match. Qed.

Lemma createPeerConnection_tracksAttached uid uname init st :
  tracksAttached st →
  tracksAttached (createPeerConnection uid uname init localStream st).
Proof.
  intros Hs uid' pc. rewrite createPeerConnection_peers.
  destruct (peersRef st !! uid) eqn:Hl; [apply Hs|].
  destruct (decide (uid = uid')) as [<-|Hne].
  - rewrite lookup_insert_eq. intros [= <-].
    unfold senderKinds. simpl. by rewrite <- list_fmap_compose.
  - rewrite lookup_insert_ne by done. apply Hs.
Qed.

Lemma tracksAttached_ext st st' :
  peersRef st' = peersRef st → tracksAttached st → tracksAttached st'.
Proof. unfold tracksAttached. by intros ->. Qed.

Lemma handle_event_tracksAttached e st :
  tracksAttached st → tracksAttached (handle_event e st).
Proof.
  intros Hs. destruct e; simpl; try done.
  - unfold on_user_joined. by apply createPeerConnection_tracksAttached.
  - unfold on_offer.
    set (st1 := setParticipants (addParticipant from fromName) st).
    assert (H1 : tracksAttached st1) by done.
    set (st2 := match peersRef st1 !! from with
                | Some _ => st1
                | None => createPeerConnection from fromName false localStream st1
                end).
    assert (H2 : tracksAttached st2).
    { subst st2. case_match; [done|by apply createPeerConnection_tracksAttached]. }
    by case_match.
  - unfold on_answer. by case_match.
  - unfold on_ice_candidate. by case_match.
  - unfold on_user_left. intros uid pc. simpl. case_match; simpl; [|apply Hs].
    intros Hl. apply lookup_delete_Some in Hl as [_ Hl]. by apply Hs in Hl.
Qed.

Lemma act_tracksAttached a st : tracksAttached st → tracksAttached (act a st).
Proof.
  intros Hs. destruct a; simpl; try done; try (case_bool_decide; try done).
  - apply (tracksAttached_ext st); [|done].
    apply (onicecandidate_keeps _ timerFree_peers).
  - intros uid pc. simpl. rewrite lookup_fmap.
    destruct (peersRef st !! uid) as [pc0|] eqn:Hl; [|done].
    intros [= <-]. rewrite replaceIn_kinds. by apply (Hs uid).
  - apply (tracksAttached_ext st); [|done].
    apply (elapse_keeps _ timerFree_peers).
Qed.

Lemma run_tracksAttached steps : tracksAttached (run steps mounted).
Proof.
  induction steps as [|s steps IH] using rev_ind.
  - intros uid pc Hl. simpl in Hl. by rewrite lookup_empty in Hl.
  - rewrite run_snoc. destruct s as [e|a]; simpl.
    + unfold deliver. case_match; [by apply handle_event_tracksAttached|done].
    + by apply act_tracksAttached.
Qed.

(** C5. Creating a connection for a peer that already has one does
    nothing at all: the state, effects included, is the one before. So
    creating twice is creating once, and at every state the event loop
    reaches a peer has one connection made and not closed when it is in
    the connection map and none otherwise, and a connection held has one
    sender per track of the local stream, no more. *)
Theorem createPeerConnection_idempotent :
  (∀ st uid uname init str,
     is_Some (peersRef st !! uid) →
     createPeerConnection uid uname init str st = st)
  ∧ (∀ st uid uname init str uname' init' str',
       createPeerConnection uid uname' init' str'
         (createPeerConnection uid uname init str st)
       = createPeerConnection uid uname init str st)
  ∧ (∀ steps uid,
       let st := run steps mounted in
       opened uid (effects st)
       = closed uid (effects st) + (if peersRef st !! uid is Some _ then 1 else 0)
       ∧ ∀ pc, peersRef st !! uid = Some pc →
               senderKinds pc = (λ t, Some (kind t)) <$> getTracks localStream).
Proof.
  split; [|split].
  - intros st uid uname init str [pc Hpc]. unfold createPeerConnection.
    by rewrite Hpc.
  - intros st uid uname init str uname' init' str'.
    unfold createPeerConnection at 1.
    rewrite createPeerConnection_peers.
    destruct (peersRef st !! uid) eqn:Hl; [by rewrite Hl|].
    by rewrite lookup_insert_eq.
  - intros steps uid st. split.
    + apply run_pcsInSync.
    + intros pc. apply run_tracksAttached.
Qed.

(** ** Replacing the outbound track *)

Lemma replaceIn_spec newTrack pc :
  length (getSenders (replaceIn newTrack pc)) = length (getSenders pc)
  ∧ match findSender newTrack pc with
    | None =>
        replaceIn newTrack pc = pc
        ∧ ∀ s, s ∈ getSenders pc → sameKind newTrack s = false
    | Some i =>
        getSenders (replaceIn newTrack pc) !! i = Some {| track := Some newTrack |}
        ∧ (∃ s, getSenders pc !! i = Some s ∧ sameKind newTrack s = true)
        ∧ (∀ j s, j < i → getSenders pc !! j = Some s → sameKind newTrack s = false)
        ∧ ∀ j, j ≠ i →
               getSenders (replaceIn newTrack pc) !! j = getSenders pc !! j
    end.
Proof.
  unfold replaceIn. destruct (findSender newTrack pc) as [i|] eqn:Hf; simpl.
  - rewrite length_insert. split; [done|].
    apply find_Some in Hf as (s & Hs & Hk & Hbefore).
    split; [|split; [by exists s|split; [done|]]].
    + apply list_lookup_insert_eq. by eapply lookup_lt_Some.
    + intros j Hj. by apply list_lookup_insert_ne.
  - split; [done|]. split; [done|]. by apply find_None.
Qed.

(** C6. Replacing the outbound track changes nothing but the senders of
    the connections held. In each connection the sender found, the first
    one whose track is of the new track's kind, gets the new track; every
    other sender of the connection stays as it was; a connection with no
    sender of that kind stays as it was. With a connection that sends
    microphone and camera and one that sends the microphone only,
    replacing the video track by the screen track changes the camera
    sender of the first and nothing else. *)
Theorem replaceTrack_swaps_matching_sender :
  (∀ newTrack st,
     setPeers (λ _, peersRef st) (replaceTrack newTrack st) = st
     ∧ ∀ uid,
         match peersRef st !! uid with
         | None => peersRef (replaceTrack newTrack st) !! uid = None
         | Some pc =>
             ∃ pc', peersRef (replaceTrack newTrack st) !! uid = Some pc'
               ∧ length (getSenders pc') = length (getSenders pc)
               ∧ match findSender newTrack pc with
                 | None =>
                     pc' = pc
                     ∧ ∀ s, s ∈ getSenders pc → sameKind newTrack s = false
                 | Some i =>
                     getSenders pc' !! i = Some {| track := Some newTrack |}
                     ∧ (∃ s, getSenders pc !! i = Some s
                             ∧ sameKind newTrack s = true)
                     ∧ (∀ j s, j < i → getSenders pc !! j = Some s →
                               sameKind newTrack s = false)
                     ∧ ∀ j, j ≠ i → getSenders pc' !! j = getSenders pc !! j
                 end
         end)
  ∧ peersRef (replaceTrack screen twoConnections)
    = <["A" := {| getSenders := [ {| track := Some microphone |};
                                  {| track := Some screen |} ] |}]>
        (<["B" := {| getSenders := [ {| track := Some microphone |} ] |}]> ∅).
Proof.
  split.
  - intros newTrack st. split; [by destruct st|].
    intros uid. unfold replaceTrack. simpl. rewrite lookup_fmap.
    destruct (peersRef st !! uid) as [pc|]; simpl; [|done].
    exists (replaceIn newTrack pc). split; [done|]. apply replaceIn_spec.
  - vm_compute. reflexivity.
Qed.

(** ** The roster snapshot *)

Lemma findIndex_from_skip {A} (p : A → bool) (pre l : list A) (i : Z) :
  (∀ y, y ∈ pre → p y = false) →
  Js.findIndex_from p (pre ++ l) i
  = Js.findIndex_from p l (i + Z.of_nat (length pre))%Z.
Proof.
  revert i. induction pre as [|a pre IH]; intros i H; simpl.
  - f_equal. lia.
  - rewrite (H a) by left. rewrite IH by (intros y Hy; apply H; by right).
    f_equal. lia.
Qed.

Lemma findIndex_from_hit {A} (p : A → bool) (pre l : list A) (i : Z) :
  (∃ y, y ∈ pre ∧ p y = true) →
  (i ≤ Js.findIndex_from p (pre ++ l) i < i + Z.of_nat (length pre))%Z.
Proof.
  revert i. induction pre as [|a pre IH]; intros i (y & Hy & Hp).
  - by apply elem_of_nil in Hy.
  - simpl. destruct (p a) eqn:Hpa; [lia|].
    apply elem_of_cons in Hy as [->|Hy]; [congruence|].
    specialize (IH (i + 1)%Z (ex_intro _ y (conj Hy Hp))). lia.
Qed.

(** An entry of the snapshot is kept when no entry before it has its id. *)
Lemma first_occurrence_kept (pre l : list UserInfo) (x : UserInfo) :
  Z.eqb (Z.of_nat (length pre))
    (Js.findIndex (λ u, bool_decide (userId u = userId x)) (pre ++ x :: l))
  = bool_decide (userId x ∉ userId <$> pre).
Proof.
  unfold Js.findIndex. case_bool_decide as Hin.
  - rewrite findIndex_from_skip.
    + simpl. rewrite bool_decide_eq_true_2 by done. apply Z.eqb_refl.
    + intros y Hy. apply bool_decide_eq_false_2. intros Heq. apply Hin.
      rewrite <- Heq. apply list_elem_of_fmap. eauto.
  - apply Z.eqb_neq.
    assert (Hhit : ∃ y, y ∈ pre ∧ bool_decide (userId y = userId x) = true).
    { apply list_elem_of_fmap in Hin as (y & Hy1 & Hy2).
      exists y. split; [done|]. by apply bool_decide_eq_true_2. }
    pose proof (findIndex_from_hit _ pre (x :: l) 0%Z Hhit). lia.
Qed.

Lemma uniqueUsers_from (pre l : list UserInfo) :
  let kept := Js.filter_from
      (λ user index self,
         Z.eqb index
           (Js.findIndex (λ u, bool_decide (userId u = userId user)) self))
      (pre ++ l) l (Z.of_nat (length pre)) in
  NoDup (userId <$> kept)
  ∧ (∀ x, x ∈ kept → x ∈ l ∧ userId x ∉ userId <$> pre)
  ∧ (∀ x, x ∈ l → userId x ∈ userId <$> pre ∨ userId x ∈ userId <$> kept).
Proof.
  revert pre. induction l as [|x l IH]; intros pre; simpl.
  - split; [apply NoDup_nil_2|]. split; intros x Hx; by apply elem_of_nil in Hx.
  - rewrite first_occurrence_kept.
    specialize (IH (pre ++ [x])). rewrite <- app_assoc in IH. simpl in IH.
    rewrite length_app in IH. simpl in IH.
    replace (Z.of_nat (length pre + 1)) with (Z.of_nat (length pre) + 1)%Z in IH
      by lia.
    destruct IH as (Hnd & Hsub & Hall).
    assert (Hpre : ∀ y, userId y ∉ (userId <$> (pre ++ [x])) →
                        (userId y ∉ userId <$> pre) ∧ userId y ≠ userId x).
    { intros y Hy. rewrite fmap_app in Hy. simpl in Hy. split.
      - intros H. apply Hy, elem_of_app. by left.
      - intros H. apply Hy, elem_of_app. right. rewrite H. left. }
    case_bool_decide as Hx.
    + split; [|split].
      * simpl. apply NoDup_cons. split; [|done].
        intros Hin. apply list_elem_of_fmap in Hin as (y & Hy1 & Hy2).
        apply Hsub in Hy2 as [_ Hy2]. apply Hpre in Hy2 as [_ Hy2]. congruence.
      * intros y Hy. apply elem_of_cons in Hy as [->|Hy].
        -- split; [left|done].
        -- apply Hsub in Hy as [Hy1 Hy2]. apply Hpre in Hy2 as [Hy2 _].
           split; [by right|done].
      * intros y Hy. apply elem_of_cons in Hy as [->|Hy].
        -- right. simpl. left.
        -- destruct (Hall y Hy) as [H|H].
           ++ rewrite fmap_app in H. apply elem_of_app in H as [H|H]; [by left|].
              simpl in H. apply list_elem_of_singleton in H. right. rewrite H.
              simpl. left.
           ++ right. simpl. by right.
    + split; [done|]. split.
      * intros y Hy. apply Hsub in Hy as [Hy1 Hy2]. apply Hpre in Hy2 as [Hy2 _].
        split; [by right|done].
      * intros y Hy. apply elem_of_cons in Hy as [->|Hy]; [by left|].
        destruct (Hall y Hy) as [H|H]; [|by right].
        rewrite fmap_app in H. apply elem_of_app in H as [H|H]; [by left|].
        simpl in H. apply list_elem_of_singleton in H. left. by rewrite H.
Qed.

Lemma uniqueUsers_spec (users : list UserInfo) :
  NoDup (userId <$> uniqueUsers users)
  ∧ (∀ x, x ∈ uniqueUsers users → x ∈ users)
  ∧ (∀ uid, uid ∈ userId <$> uniqueUsers users ↔ uid ∈ userId <$> users).
Proof.
  destruct (uniqueUsers_from [] users) as (Hnd & Hsub & Hall).
  split; [done|]. split; [intros x Hx; by apply Hsub in Hx as [? _]|].
  intros uid. split; intros H; apply list_elem_of_fmap in H as (x & -> & Hx).
  - apply list_elem_of_fmap. exists x. split; [done|]. by apply Hsub in Hx as [? _].
  - destruct (Hall x Hx) as [H|H]; [|done]. simpl in H. by apply elem_of_nil in H.
Qed.

(** C7. An existing-users snapshot replaces the roster by one participant
    per distinct user id of the snapshot, each built from an entry of the
    snapshot, and sets the status to joined. The snapshot A, A, B gives
    the roster A, B. *)
Theorem existing_users_deduplicated (users : list UserInfo) (st : State) :
  let st' := handle_event (In_existing_users users) st in
  NoDup (id <$> participants st')
  ∧ (∀ uid, uid ∈ id <$> participants st' ↔ uid ∈ userId <$> users)
  ∧ (∀ p, p ∈ participants st' →
          ∃ u, u ∈ users
               ∧ p = {| id := userId u; name := userName u; stream := None;
                        isMicOn := true; isCameraOn := true |})
  ∧ connectionStatus st' = joined
  ∧ participants (handle_event (In_existing_users [alice; alice'; bob]) st)
    = [ {| id := "A"; name := "Alice"; stream := None;
           isMicOn := true; isCameraOn := true |};
        {| id := "B"; name := "Bob"; stream := None;
           isMicOn := true; isCameraOn := true |} ].
Proof.
  destruct (uniqueUsers_spec users) as (Hnd & Hsub & Hids).
  simpl. rewrite <- list_fmap_compose.
  split; [done|]. split; [done|]. split; [|split; [done|]].
  - intros p Hp. apply list_elem_of_fmap in Hp as (u & -> & Hu).
    exists u. split; [by apply Hsub|done].
  - vm_compute. reflexivity.
Qed.

(** ** Joining and leaving *)

Lemma on_user_joined_peer data st :
  is_Some (peersRef (on_user_joined data st) !! userId data).
Proof.
  unfold on_user_joined. rewrite createPeerConnection_peers. simpl.
  destruct (peersRef st !! userId data) eqn:Hl; [by rewrite Hl|].
  rewrite lookup_insert_eq. by eexists.
Qed.

Lemma on_user_left_gone data st :
  (∀ p, p ∈ participants (on_user_left data st) → id p ≠ userId data)
  ∧ peersRef (on_user_left data st) !! userId data = None.
Proof.
  unfold on_user_left. split.
  - intros p Hp. simpl in Hp.
    apply list_elem_of_In, filter_In in Hp as [_ Hp].
    apply negb_true_iff, bool_decide_eq_false in Hp. done.
  - simpl. destruct (peersRef st !! userId data) eqn:Hl; simpl; [|done].
    apply lookup_delete_eq.
Qed.

(** C8. When a user-joined event for a peer is handled and then a
    user-left event for the same peer, whatever the names they carry and
    whatever the state before, no participant of the roster has that id
    afterwards, no connection is held for it, and the last thing done was
    to close the peer's connection. On a connected socket, this is what
    the two events in a row do. *)
Theorem joined_then_left_leaves_nothing :
  (∀ (uid joinedAs leftAs : string) (st : State),
     let st' :=
       handle_event (In_user_left {| userId := uid; userName := leftAs |})
         (handle_event (In_user_joined {| userId := uid; userName := joinedAs |}) st) in
     (∀ p, p ∈ participants st' → id p ≠ uid)
     ∧ peersRef st' !! uid = None
     ∧ last (effects st') = Some (now st, PcClose uid))
  ∧ (∀ (uid joinedAs leftAs : string) (st : State),
       connected st = true →
       let st' :=
         run [ Inbound (In_user_joined {| userId := uid; userName := joinedAs |});
               Inbound (In_user_left {| userId := uid; userName := leftAs |}) ] st in
       (∀ p, p ∈ participants st' → id p ≠ uid)
       ∧ peersRef st' !! uid = None).
Proof.
  assert (Hmain : ∀ (uid joinedAs leftAs : string) (st : State),
     let st' :=
       handle_event (In_user_left {| userId := uid; userName := leftAs |})
         (handle_event (In_user_joined {| userId := uid; userName := joinedAs |}) st) in
     (∀ p, p ∈ participants st' → id p ≠ uid)
     ∧ peersRef st' !! uid = None
     ∧ last (effects st') = Some (now st, PcClose uid)).
  { intros uid joinedAs leftAs st. simpl.
    set (d1 := {| userId := uid; userName := joinedAs |}).
    set (d2 := {| userId := uid; userName := leftAs |}).
    destruct (on_user_left_gone d2 (on_user_joined d1 st)) as [Hp Hc].
    split; [done|]. split; [done|].
    destruct (on_user_joined_peer d1 st) as [pc Hpc].
    unfold on_user_left. simpl. simpl in Hpc. rewrite Hpc. simpl.
    rewrite last_snoc. do 2 f_equal.
    apply (handle_event_keeps _ handlerFree_now (In_user_joined d1)). }
  split; [done|].
  intros uid joinedAs leftAs st Hc. simpl. unfold deliver.
  rewrite Hc. rewrite handle_event_connected, Hc.
  destruct (Hmain uid joinedAs leftAs st) as (H1 & H2 & _). done.
Qed.

(** ** Admitting and rejecting *)

Lemma filter_other_id (uid : string) (reqs : list UserInfo) :
  uid ∉ userId <$> reqs →
  List.filter (λ req, negb (bool_decide (userId req = uid))) reqs = reqs.
Proof.
  intros H. apply filter_all. intros r Hr.
  apply negb_true_iff, bool_decide_eq_false_2. intros Heq. apply H.
  apply list_elem_of_fmap. eauto.
Qed.

Lemma filter_id_gone (uid : string) (reqs : list UserInfo) :
  uid ∉ userId <$> List.filter (λ req, negb (bool_decide (userId req = uid))) reqs.
Proof.
  intros H. apply list_elem_of_fmap in H as (r & -> & Hr).
  apply list_elem_of_In, filter_In in Hr as [_ Hr].
  apply negb_true_iff, bool_decide_eq_false in Hr. done.
Qed.

(** C9, as amended. Admitting a user sends the admit-user message for
    that id and the room, rejecting sends the reject-user message; either removes
    from the pending queue the requests of that id and keeps the others
    in order. Both are total, and for an id that has no pending request
    the queue stays as it is; the decision message is sent in that case
    too. *)
Theorem admit_reject_dequeue (uid : string) (st : State) :
  (effects (admitUser uid st)
   = effects st ++ [(now st, Emit (Out_admit_user uid roomId))]
   ∧ pendingRequests (admitUser uid st)
     = List.filter (λ req, negb (bool_decide (userId req = uid)))
         (pendingRequests st)
   ∧ uid ∉ userId <$> pendingRequests (admitUser uid st))
  ∧ (effects (rejectUser uid st)
     = effects st ++ [(now st, Emit (Out_reject_user uid roomId))]
     ∧ pendingRequests (rejectUser uid st)
       = List.filter (λ req, negb (bool_decide (userId req = uid)))
           (pendingRequests st)
     ∧ uid ∉ userId <$> pendingRequests (rejectUser uid st))
  ∧ (uid ∉ userId <$> pendingRequests st →
     pendingRequests (admitUser uid st) = pendingRequests st
     ∧ pendingRequests (rejectUser uid st) = pendingRequests st).
Proof.
  split; [|split].
  - split; [done|]. split; [done|]. apply filter_id_gone.
  - split; [done|]. split; [done|]. apply filter_id_gone.
  - intros H. split; by apply filter_other_id.
Qed.

(** ** How participants start out *)

Lemma some_false_not_elem uid (prev : list Participant) :
  Js.some (λ p, bool_decide (id p = uid)) prev = false → uid ∉ id <$> prev.
Proof.
  unfold Js.some. intros Hs Hin.
  apply list_elem_of_fmap in Hin as (p & -> & Hp).
  assert (Ht : existsb (λ q, bool_decide (id q = id p)) prev = true).
  { apply existsb_exists. exists p. split; [by apply list_elem_of_In|].
    by apply bool_decide_eq_true_2. }
  congruence.
Qed.

Lemma some_true_elem uid (prev : list Participant) :
  Js.some (λ p, bool_decide (id p = uid)) prev = true → uid ∈ id <$> prev.
Proof.
  unfold Js.some. intros Hs. apply existsb_exists in Hs as (p & Hp & Hid).
  apply bool_decide_eq_true in Hid. apply list_elem_of_fmap.
  exists p. split; [done|by apply list_elem_of_In].
Qed.

(** The two cases of the updater: a peer not in the roster is appended
    as a new participant, a peer in the roster changes nothing. *)
Lemma addParticipant_cases uid uname prev :
  (uid ∉ id <$> prev →
   addParticipant uid uname prev
   = prev ++ [{| id := uid; name := uname; stream := None;
                 isMicOn := true; isCameraOn := true |}])
  ∧ (uid ∈ id <$> prev → addParticipant uid uname prev = prev).
Proof.
  unfold addParticipant. destruct (Js.some _ prev) eqn:Hs.
  - apply some_true_elem in Hs. split; [by intros H|done].
  - apply some_false_not_elem in Hs. split; [done|by intros H].
Qed.

Lemma addParticipant_elem uid uname prev p :
  p ∈ addParticipant uid uname prev →
  p ∈ prev
  ∨ p = {| id := uid; name := uname; stream := None;
           isMicOn := true; isCameraOn := true |}.
Proof.
  unfold addParticipant. destruct (Js.some _ prev); [by left|].
  intros Hp. apply elem_of_app in Hp as [Hp|Hp]; [by left|].
  apply list_elem_of_singleton in Hp. by right.
Qed.

Lemma createPeerConnection_participants uid uname init str st :
  participants (createPeerConnection uid uname init str st) = participants st.
Proof. unfold createPeerConnection. by repeat case_match. Qed.

Lemma on_offer_participants from sdp fromName st :
  participants (on_offer from sdp fromName st)
  = addParticipant from fromName (participants st).
Proof.
  unfold on_offer.
  repeat case_match; simpl; by rewrite ?createPeerConnection_participants.
Qed.

Lemma on_user_joined_participants data st :
  participants (on_user_joined data st)
  = addParticipant (userId data) (userName data) (participants st).
Proof.
  unfold on_user_joined. by rewrite createPeerConnection_participants.
Qed.

(** Where the stream of a participant comes from after an inbound event:
    from the roster before. *)
Lemma handle_event_stream e st p :
  p ∈ participants (handle_event e st) → stream p ≠ None →
  ∃ q, q ∈ participants st ∧ id q = id p ∧ stream q = stream p.
Proof.
  intros Hp Hs. destruct e; simpl in Hp; try (by exists p).
  - rewrite on_user_joined_participants in Hp.
    apply addParticipant_elem in Hp as [Hp| ->]; [by exists p|done].
  - apply list_elem_of_fmap in Hp as (q & -> & Hq). exists q.
    split; [done|]. case_bool_decide; [|done]. by destruct k.
  - rewrite on_offer_participants in Hp.
    apply addParticipant_elem in Hp as [Hp| ->]; [by exists p|done].
  - unfold on_answer in Hp. exists p. by destruct (peersRef st !! from).
  - unfold on_ice_candidate in Hp. exists p. by destruct (peersRef st !! from).
  - unfold on_user_left in Hp. simpl in Hp.
    apply list_elem_of_In, filter_In in Hp as [Hp _].
    apply list_elem_of_In in Hp. exists p. by destruct (peersRef st !! userId data).
  - apply list_elem_of_fmap in Hp as (u & -> & _). done.
Qed.

(** C10. The user-joined handler and the offer handler append, for a
    peer that is not in the roster, one participant with the id and the
    name of the event, no stream, the microphone on and the camera on,
    and leave the roster as it is for a peer that is in it. The
    existing-users handler gives every user of the snapshot a
    participant, and each participant it makes has no stream, the
    microphone on and the camera on. Afterwards a participant has a stream
    only if the participant of that id had this stream one step before, or
    the step was the arrival of a remote track on the connection of that
    peer, which sets the first stream of the track event. *)
Theorem participants_start_without_stream :
  (∀ data st,
     let new := {| id := userId data; name := userName data; stream := None;
                   isMicOn := true; isCameraOn := true |} in
     let roster := participants (handle_event (In_user_joined data) st) in
     (userId data ∉ id <$> participants st → roster = participants st ++ [new])
     ∧ (userId data ∈ id <$> participants st → roster = participants st))
  ∧ (∀ from sdp fromName st,
       let new := {| id := from; name := fromName; stream := None;
                     isMicOn := true; isCameraOn := true |} in
       let roster := participants (handle_event (In_offer from sdp fromName) st) in
       (from ∉ id <$> participants st → roster = participants st ++ [new])
       ∧ (from ∈ id <$> participants st → roster = participants st))
  ∧ (∀ users st,
       let roster := participants (handle_event (In_existing_users users) st) in
       (∀ p, p ∈ roster →
             stream p = None ∧ isMicOn p = true ∧ isCameraOn p = true)
       ∧ (∀ u, u ∈ users → ∃ p, p ∈ roster ∧ id p = userId u))
  ∧ (∀ s st p,
       p ∈ participants (step s st) → stream p ≠ None →
       (∃ q, q ∈ participants st ∧ id q = id p ∧ stream q = stream p)
       ∨ (∃ streams, s = Local (OnTrack (id p) streams)
                     ∧ is_Some (peersRef st !! id p)
                     ∧ stream p = head streams)).
Proof.
  split; [|split; [|split]].
  - intros data st new roster. subst roster new. simpl.
    rewrite on_user_joined_participants. apply addParticipant_cases.
  - intros from sdp fromName st new roster. subst roster new. simpl.
    rewrite on_offer_participants. apply addParticipant_cases.
  - intros users st roster. subst roster. simpl. split.
    + intros p Hp. apply list_elem_of_fmap in Hp as (u & -> & _). done.
    + intros u Hu.
      destruct (uniqueUsers_spec users) as (_ & _ & Hids).
      assert (Hin : userId u ∈ userId <$> uniqueUsers users).
      { apply Hids, list_elem_of_fmap. eauto. }
      apply list_elem_of_fmap in Hin as (x & Hx & Hin).
      exists (newParticipant (userId x) (userName x)). split; [|done].
      apply list_elem_of_fmap. eauto.
  - intros s st p Hp Hs. destruct s as [e|a]; simpl in Hp.
    + left. unfold deliver in Hp. destruct (connected st); [|by exists p].
      by apply (handle_event_stream e).
    + destruct a; simpl in Hp; try (left; by exists p).
      * case_bool_decide as Hpc; [|left; by exists p].
        simpl in Hp. apply list_elem_of_fmap in Hp as (q & -> & Hq).
        case_bool_decide as Hid; [|left; by exists q].
        right. exists streams. simpl. by rewrite Hid.
      * left. exists p. split; [|done]. case_bool_decide; [|done].
        by rewrite (onicecandidate_keeps _ timerFree_participants) in Hp.
      * left. exists p. split; [|done].
        by rewrite (elapse_keeps _ timerFree_participants) in Hp.
Qed.

(** * Further properties of the hook *)

(** ** The roster *)

Lemma addParticipant_ids uid uname prev :
  NoDup (id <$> prev) → NoDup (id <$> addParticipant uid uname prev).
Proof.
  intros Hnd. unfold addParticipant.
  destruct (Js.some _ prev) eqn:Hs; [done|].
  rewrite fmap_app. apply NoDup_app. split; [done|]. split.
  - intros x Hx Hx'. simpl in Hx'. apply list_elem_of_singleton in Hx' as ->.
    by apply some_false_not_elem in Hs.
  - simpl. apply NoDup_singleton.
Qed.

Lemma NoDup_fmap_filter {A B} (f : A → B) (g : A → bool) (l : list A) :
  NoDup (f <$> l) → NoDup (f <$> List.filter g l).
Proof.
  induction l as [|a l IH]; simpl; [done|].
  rewrite NoDup_cons. intros [Hnotin Hnd].
  destruct (g a); simpl; [|by apply IH].
  apply NoDup_cons. split; [|by apply IH].
  intros Hin. apply Hnotin.
  apply list_elem_of_fmap in Hin as (u & -> & Hu).
  apply list_elem_of_In, filter_In in Hu as [Hu _].
  apply list_elem_of_fmap. exists u. split; [done|by apply list_elem_of_In].
Qed.

Lemma ids_fmap_same (f : Participant → Participant) (l : list Participant) :
  (∀ p, id (f p) = id p) → id <$> (f <$> l) = id <$> l.
Proof.
  intros Hf. rewrite <- list_fmap_compose. apply list_fmap_ext.
  intros i p _. apply Hf.
Qed.

Lemma handle_event_ids_distinct e st :
  NoDup (id <$> participants st) →
  NoDup (id <$> participants (handle_event e st)).
Proof.
  intros Hnd. destruct e; simpl; try done.
  - rewrite on_user_joined_participants. by apply addParticipant_ids.
  - rewrite ids_fmap_same; [done|]. intros p. case_bool_decide; [|done].
    by destruct k.
  - rewrite on_offer_participants. by apply addParticipant_ids.
  - unfold on_answer. by case_match.
  - unfold on_ice_candidate. by case_match.
  - unfold on_user_left. simpl.
    assert (Hp : participants
                   match peersRef st !! userId data with
                   | Some _ => setPeers (delete (userId data))
                                 (perform (PcClose (userId data)) st)
                   | None => st
                   end = participants st) by (by case_match).
    rewrite Hp. by apply NoDup_fmap_filter.
  - rewrite <- list_fmap_compose. apply uniqueUsers_spec.
Qed.

Lemma act_ids_distinct a st :
  NoDup (id <$> participants st) → NoDup (id <$> participants (act a st)).
Proof.
  intros Hnd. destruct a; simpl; try done; try (case_bool_decide; try done).
  - simpl. rewrite ids_fmap_same; [done|]. intros p. by case_bool_decide.
  - by rewrite (onicecandidate_keeps _ timerFree_participants).
  - by rewrite (elapse_keeps _ timerFree_participants).
Qed.

(** X1. At every state the event loop reaches, no two participants of
    the roster have the same id. *)
Theorem roster_ids_distinct (steps : list Step) :
  NoDup (id <$> participants (run steps mounted)).
Proof.
  induction steps as [|s steps IH] using rev_ind; [apply NoDup_nil_2|].
  rewrite run_snoc. destruct s as [e|a]; simpl.
  - unfold deliver. case_match; [by apply handle_event_ids_distinct|done].
  - by apply act_ids_distinct.
Qed.

(** ** Stale signaling *)

(** X2. An answer or a remote candidate from a peer that has no
    connection changes nothing at all; in particular, once a peer has
    left, its late answers and candidates are dropped. From a peer that
    has a connection, they are handed to that connection and nothing else
    changes. *)
Theorem stale_signaling_ignored :
  (∀ from sdp c st,
     peersRef st !! from = None →
     handle_event (In_answer from sdp) st = st
     ∧ handle_event (In_ice_candidate from c) st = st)
  ∧ (∀ data sdp c st,
       let st' := handle_event (In_user_left data) st in
       handle_event (In_answer (userId data) sdp) st' = st'
       ∧ handle_event (In_ice_candidate (userId data) c) st' = st')
  ∧ (∀ from sdp c st,
       is_Some (peersRef st !! from) →
       handle_event (In_answer from sdp) st
       = perform (PcSetRemoteDescription from sdp) st
       ∧ handle_event (In_ice_candidate from c) st
         = perform (PcAddIceCandidate from c) st).
Proof.
  assert (Hnone : ∀ from sdp c st,
     peersRef st !! from = None →
     handle_event (In_answer from sdp) st = st
     ∧ handle_event (In_ice_candidate from c) st = st).
  { intros from sdp c st Hl. simpl. unfold on_answer, on_ice_candidate.
    by rewrite Hl. }
  split; [done|]. split.
  - intros data sdp c st st'. apply Hnone. apply on_user_left_gone.
  - intros from sdp c st [pc Hpc]. simpl. unfold on_answer, on_ice_candidate.
    by rewrite Hpc.
Qed.

(** ** Media status of a peer *)

(** X3. A media-status-update changes the roster only: the participants
    keep their place, id, name and stream; a participant of the given id
    gets the given flag, microphone for audio and camera for video, and
    keeps the other flag; every other participant is untouched, so an
    update for an id that is not in the roster changes nothing. Handling
    the same update twice is handling it once. *)
Theorem media_status_update_sets_one_flag (uid : string) (k : TrackKind)
    (isOn : bool) (st : State) :
  let st' := handle_event (In_media_status_update uid k isOn) st in
  setParticipants (λ _, participants st) st' = st
  ∧ (λ p, (id p, name p, stream p)) <$> participants st'
    = (λ p, (id p, name p, stream p)) <$> participants st
  ∧ (∀ i p, participants st !! i = Some p →
            ∃ p', participants st' !! i = Some p'
                  ∧ if bool_decide (id p = uid)
                    then match k with
                         | audio => isMicOn p' = isOn ∧ isCameraOn p' = isCameraOn p
                         | video => isCameraOn p' = isOn ∧ isMicOn p' = isMicOn p
                         end
                    else p' = p)
  ∧ (uid ∉ id <$> participants st → st' = st)
  ∧ handle_event (In_media_status_update uid k isOn) st' = st'.
Proof.
  simpl. unfold on_media_status_update.
  set (f := λ p : Participant,
         if bool_decide (id p = uid)
         then match k with
              | audio => {| id := id p; name := name p; stream := stream p;
                            isMicOn := isOn; isCameraOn := isCameraOn p |}
              | video => {| id := id p; name := name p; stream := stream p;
                            isMicOn := isMicOn p; isCameraOn := isOn |}
              end
         else p).
  assert (Hkeep : ∀ p, (id (f p), name (f p), stream (f p)) = (id p, name p, stream p)).
  { intros p. unfold f. destruct (bool_decide (id p = uid)); [|done].
    by destruct k. }
  assert (Hidem : ∀ p, f (f p) = f p).
  { intros p. unfold f. destruct (bool_decide (id p = uid)) eqn:Hb.
    - destruct k; simpl; by rewrite Hb.
    - by rewrite Hb. }
  split; [by destruct st|]. split.
  { simpl. rewrite <- list_fmap_compose. apply list_fmap_ext.
    intros i p _. apply Hkeep. }
  split.
  { intros i p Hp. exists (f p). simpl. rewrite list_lookup_fmap, Hp.
    split; [done|]. unfold f. destruct (bool_decide (id p = uid)); [|done].
    by destruct k. }
  split.
  { intros Hnot. destruct st. unfold setParticipants. simpl in *. f_equal.
    rewrite <- (list_fmap_id participants0) at 2. apply list_fmap_ext.
    intros i p Hp. unfold f. simpl. case_bool_decide as Hid; [|done].
    destruct Hnot. apply list_elem_of_fmap. exists p.
    split; [done|]. apply list_elem_of_lookup. eauto. }
  unfold setParticipants. simpl. f_equal.
  rewrite <- list_fmap_compose. apply list_fmap_ext. intros i p _. apply Hidem.
Qed.

(** ** Offers *)

(** X4. After an offer from a peer is handled, the peer has a connection
    and a participant, and the last thing done was to hand the offer to
    the connection. For a peer that already has both, this is all that
    happens (a renegotiation creates nothing). On first contact one
    connection is made for the peer, with one sender per local track, and
    no offer is asked of it. In no case is a message sent before the
    answer is ready. *)
Theorem offer_creates_once (from : string) (sdp : SessionDescription)
    (fromName : string) (st : State) :
  let st' := handle_event (In_offer from sdp fromName) st in
  (is_Some (peersRef st' !! from)
   ∧ from ∈ id <$> participants st'
   ∧ last (effects st') = Some (now st, PcSetRemoteDescription from sdp)
   ∧ emitted st' = emitted st)
  ∧ (is_Some (peersRef st !! from) → from ∈ id <$> participants st →
     st' = perform (PcSetRemoteDescription from sdp) st)
  ∧ (peersRef st !! from = None →
     effects st'
     = effects st ++ [ (now st, PcNew from);
                       (now st, PcSetRemoteDescription from sdp) ]
     ∧ peersRef st'
       = <[from := {| getSenders := (λ t, {| track := Some t |})
                                      <$> getTracks localStream |}]>
           (peersRef st)).
Proof.
  simpl. split; [|split].
  - unfold on_offer. simpl.
    destruct (peersRef st !! from) as [pc|] eqn:Hl; simpl.
    + rewrite Hl. simpl. rewrite Hl. split; [by eexists|].
      split; [|split].
      * unfold addParticipant. destruct (Js.some _ _) eqn:Hs.
        -- by apply some_true_elem.
        -- rewrite fmap_app. apply elem_of_app. right. simpl. left.
      * by rewrite last_snoc.
      * unfold emitted. simpl. rewrite omap_app. simpl. by rewrite app_nil_r.
    + unfold createPeerConnection. simpl. rewrite Hl. simpl.
      rewrite lookup_insert_eq. simpl. rewrite lookup_insert_eq.
      split; [by eexists|]. split; [|split].
      * unfold addParticipant. destruct (Js.some _ _) eqn:Hs.
        -- by apply some_true_elem.
        -- rewrite fmap_app. apply elem_of_app. right. simpl. left.
      * by rewrite last_snoc.
      * unfold emitted. simpl. rewrite !omap_app. simpl. by rewrite !app_nil_r.
  - intros [pc Hpc] Hin. unfold on_offer. simpl. rewrite Hpc. simpl. rewrite Hpc.
    assert (Hadd : addParticipant from fromName (participants st) = participants st).
    { unfold addParticipant. destruct (Js.some _ _) eqn:Hs; [done|].
      by apply some_false_not_elem in Hs. }
    destruct st. unfold perform, setParticipants. simpl in *. by rewrite Hadd.
  - intros Hl. unfold on_offer, createPeerConnection. simpl. rewrite Hl. simpl.
    rewrite lookup_insert_eq. simpl. split; [|done].
    by rewrite <- app_assoc.
Qed.

(** ** Replacing a track again *)

Lemma find_same_tests {A B} (p : A → bool) (q : B → bool)
    (l : list A) (l' : list B) :
  p <$> l = q <$> l' → Js.find p l = Js.find q l'.
Proof.
  revert l'. induction l as [|a l IH]; intros [|a' l']; simpl; try done.
  intros [= Ha Hl]. rewrite Ha. by rewrite (IH l' Hl).
Qed.

Lemma find_fmap {A B} (p : B → bool) (f : A → B) (l : list A) :
  Js.find p (f <$> l) = Js.find (λ a, p (f a)) l.
Proof.
  induction l as [|a l IH]; [done|]. cbn. destruct (p (f a)); [done|].
  f_equal. apply IH.
Qed.

Lemma sameKind_kind t t' s :
  kind t = kind t' → sameKind t s = sameKind t' s.
Proof. intros H. unfold sameKind. by rewrite H. Qed.

Lemma findSender_replaceIn t t' pc :
  kind t = kind t' → findSender t' (replaceIn t pc) = findSender t pc.
Proof.
  intros Hk. unfold replaceIn.
  destruct (findSender t pc) as [i|] eqn:Hf; unfold findSender in *; simpl.
  - rewrite <- Hf. apply find_same_tests.
    rewrite list_fmap_insert.
    apply find_Some in Hf as (s & Hs & Hp & _).
    rewrite list_insert_id.
    + apply list_fmap_ext. intros j x _. symmetry. by apply sameKind_kind.
    + rewrite list_lookup_fmap, Hs. simpl. f_equal.
      rewrite <- (sameKind_kind t t' s Hk), Hp.
      unfold sameKind. simpl. by rewrite bool_decide_eq_true_2.
  - rewrite <- Hf. apply find_same_tests, list_fmap_ext.
    intros j x _. symmetry. by apply sameKind_kind.
Qed.

Lemma replaceIn_last_wins t t' pc :
  kind t = kind t' → replaceIn t' (replaceIn t pc) = replaceIn t' pc.
Proof.
  intros Hk. unfold replaceIn at 1 3.
  rewrite (findSender_replaceIn t t' pc Hk).
  assert (Hff : findSender t' pc = findSender t pc).
  { unfold findSender. apply find_same_tests, list_fmap_ext.
    intros j x _. symmetry. by apply sameKind_kind. }
  rewrite Hff. unfold replaceIn.
  destruct (findSender t pc) as [i|]; [|done]. simpl.
  by rewrite list_insert_insert_eq.
Qed.

Lemma replaceIn_same t pc :
  (∀ i, findSender t pc = Some i → getSenders pc !! i = Some {| track := Some t |}) →
  replaceIn t pc = pc.
Proof.
  intros H. unfold replaceIn. destruct (findSender t pc) as [i|]; [|done].
  rewrite list_insert_id by by apply H. by destruct pc.
Qed.

Lemma replaceTrack_same t st :
  (∀ uid pc i, peersRef st !! uid = Some pc → findSender t pc = Some i →
               getSenders pc !! i = Some {| track := Some t |}) →
  replaceTrack t st = st.
Proof.
  intros H. destruct st as [ps peers]. unfold replaceTrack, setPeers. simpl in *.
  f_equal. apply map_eq. intros uid. rewrite lookup_fmap.
  destruct (peers !! uid) as [pc|] eqn:Hl; [|done]. simpl. f_equal.
  apply replaceIn_same. intros i. by apply (H uid).
Qed.

Lemma createPeerConnection_sendersFresh uid uname init st :
  sendersFresh st →
  sendersFresh (createPeerConnection uid uname init localStream st).
Proof.
  intros Hs uid' pc. rewrite createPeerConnection_peers.
  destruct (peersRef st !! uid) eqn:Hl; [apply Hs|].
  destruct (decide (uid = uid')) as [<-|Hne].
  - rewrite lookup_insert_eq. by intros [= <-].
  - rewrite lookup_insert_ne by done. apply Hs.
Qed.

Lemma handle_event_sendersFresh e st :
  sendersFresh st → sendersFresh (handle_event e st).
Proof.
  intros Hs. destruct e; simpl; try done.
  - unfold on_user_joined. by apply createPeerConnection_sendersFresh.
  - unfold on_offer.
    set (st1 := setParticipants (addParticipant from fromName) st).
    assert (H1 : sendersFresh st1) by done.
    set (st2 := match peersRef st1 !! from with
                | Some _ => st1
                | None => createPeerConnection from fromName false localStream st1
                end).
    assert (H2 : sendersFresh st2).
    { subst st2. case_match; [done|by apply createPeerConnection_sendersFresh]. }
    by case_match.
  - unfold on_answer. by case_match.
  - unfold on_ice_candidate. by case_match.
  - unfold on_user_left. intros uid pc. simpl. case_match; simpl; [|apply Hs].
    intros Hl. apply lookup_delete_Some in Hl as [_ Hl]. by apply Hs in Hl.
Qed.

Lemma step_sendersFresh s st :
  isReplaceTrack s = false → sendersFresh st → sendersFresh (step s st).
Proof.
  intros Hr Hs. destruct s as [e|a]; simpl.
  - unfold deliver. case_match; [by apply handle_event_sendersFresh|done].
  - destruct a; simpl; try done; try (case_bool_decide; try done).
    + intros uid pc.
      rewrite (onicecandidate_keeps _ timerFree_peers). apply Hs.
    + intros uid pc. rewrite (elapse_keeps _ timerFree_peers). apply Hs.
Qed.

Lemma run_sendersFresh steps :
  forallb (λ s, negb (isReplaceTrack s)) steps = true →
  sendersFresh (run steps mounted).
Proof.
  induction steps as [|s steps IH] using rev_ind; intros Hall.
  - intros uid pc Hl. simpl in Hl. by rewrite lookup_empty in Hl.
  - rewrite forallb_app in Hall. apply andb_true_iff in Hall as [H1 H2].
    simpl in H2. rewrite andb_true_r in H2. apply negb_true_iff in H2.
    rewrite run_snoc. apply step_sendersFresh; [done|by apply IH].
Qed.

Lemma replace_round_trip steps original other :
  forallb (λ s, negb (isReplaceTrack s)) steps = true →
  kind other = kind original →
  (∀ i, Js.find (λ t, bool_decide (kind t = kind original))
          (getTracks localStream) = Some i →
        getTracks localStream !! i = Some original) →
  replaceTrack original (replaceTrack other (run steps mounted))
  = run steps mounted.
Proof.
  intros Hall Hk Hfirst.
  assert (Hlast : replaceTrack original (replaceTrack other (run steps mounted))
                  = replaceTrack original (run steps mounted)).
  { unfold replaceTrack, setPeers. simpl. f_equal.
    rewrite <- map_fmap_compose. apply map_fmap_ext.
    intros uid pc _. simpl. by apply replaceIn_last_wins. }
  rewrite Hlast. apply replaceTrack_same.
  intros uid pc i Hpc Hf.
  pose proof (run_sendersFresh steps Hall uid pc Hpc) as Hfresh.
  unfold findSender in Hf. rewrite Hfresh in *. rewrite find_fmap in Hf.
  rewrite list_lookup_fmap, (Hfirst i); [done|].
  rewrite <- Hf. apply find_same_tests, list_fmap_ext. intros j t _. done.
Qed.

(** X5. Of two replacements by tracks of one kind the last wins, so
    replacing by the same track twice is replacing once. In a session in
    which no track was replaced before, replacing the track a connection
    sends by another one of its kind and then by the first again leaves
    every connection, and the whole state, as it was: sharing the screen
    and going back to the camera is a round trip. The first track must be
    the first of its kind in the local stream. *)
Theorem replaceTrack_last_wins :
  (∀ t t' st,
     kind t = kind t' →
     replaceTrack t' (replaceTrack t st) = replaceTrack t' st)
  ∧ (∀ steps original other,
       forallb (λ s, negb (isReplaceTrack s)) steps = true →
       kind other = kind original →
       (∀ i, Js.find (λ t, bool_decide (kind t = kind original))
               (getTracks localStream) = Some i →
             getTracks localStream !! i = Some original) →
       let st := run steps mounted in
       replaceTrack original (replaceTrack other st) = st).
Proof.
  assert (Hlast : ∀ t t' st,
     kind t = kind t' →
     replaceTrack t' (replaceTrack t st) = replaceTrack t' st).
  { intros t t' st Hk. unfold replaceTrack, setPeers. simpl. f_equal.
    rewrite <- map_fmap_compose. apply map_fmap_ext.
    intros uid pc _. simpl. by apply replaceIn_last_wins. }
  split; [done|].
  intros steps original other Hall Hk Hfirst st. by apply replace_round_trip.
Qed.

(** ** No candidate is lost *)

Section SendOnly.

Context {X : Type} (proj : State → X) (Hquiet : sendOnly proj).

Lemma createPeerConnection_quiet uid uname init str st :
  proj (createPeerConnection uid uname init str st) = proj st.
Proof.
  destruct Hquiet as (Hp & _ & Hpeers & _).
  unfold createPeerConnection. repeat case_match; by rewrite ?Hp, ?Hpeers, ?Hp.
Qed.

Lemma handle_event_quiet e st : proj (handle_event e st) = proj st.
Proof.
  pose proof Hquiet as (Hp & Hpart & Hpeers & Hpend & Hs & Hc).
  destruct e; simpl.
  - apply Hs.
  - unfold on_join_approved, playNotificationSound. by rewrite Hp, Hs.
  - unfold on_join_rejected. by rewrite Hp, Hc, Hs.
  - unfold on_join_request, playNotificationSound. by rewrite Hp, Hpend.
  - unfold on_user_joined, playNotificationSound.
    by rewrite createPeerConnection_quiet, Hpart, Hp.
  - apply Hpart.
  - unfold on_offer.
    repeat case_match; by rewrite ?Hp, ?createPeerConnection_quiet, ?Hpart.
  - unfold on_answer. case_match; by rewrite ?Hp.
  - unfold on_ice_candidate. case_match; by rewrite ?Hp.
  - unfold on_user_left. rewrite Hpart. case_match; by rewrite ?Hpeers, ?Hp.
  - unfold on_existing_users. by rewrite Hs, Hpart.
Qed.

End SendOnly.

Lemma sentTo_app uid l l' : sentTo uid (l ++ l') = sentTo uid l ++ sentTo uid l'.
Proof. unfold sentTo. by rewrite iceSent_app, omap_app. Qed.

Lemma sentTo_other uid t e :
  (∀ room c, e ≠ Emit (Out_ice_candidate room uid c)) → sentTo uid [(t, e)] = [].
Proof.
  intros H. unfold sentTo, iceSent. simpl.
  destruct e as [m| | | | | | | |]; try done. destruct m; try done. simpl.
  case_bool_decide as Hto; [|done]. simpl in Hto. subst. by destruct (H room candidate).
Qed.

Lemma sentTo_perform uid e st :
  (∀ room c, e ≠ Emit (Out_ice_candidate room uid c)) →
  sentTo uid (effects (perform e st)) = sentTo uid (effects st).
Proof.
  intros H. simpl. by rewrite sentTo_app, sentTo_other, app_nil_r.
Qed.

Lemma sendOnly_sentTo uid : sendOnly (λ st, sentTo uid (effects st)).
Proof.
  repeat split. intros e st He. apply sentTo_perform. intros room c. apply He.
Qed.

Lemma sentTo_emits uid t room peer (cs : list RTCIceCandidate) :
  sentTo uid ((λ c, (t, Emit (Out_ice_candidate room peer c))) <$> cs)
  = if bool_decide (peer = uid) then cs else [].
Proof.
  unfold sentTo. rewrite iceSent_emits.
  induction cs as [|c cs IH]; [by case_bool_decide|].
  cbn. cbn in IH. rewrite IH. by case_bool_decide.
Qed.

Lemma flush_queue_lookup uid st :
  iceCandidateQueue (flush uid st) !! uid
  = match iceCandidateQueue st !! uid with
    | Some [] => Some []
    | _ => None
    end.
Proof.
  unfold flush. destruct (iceCandidateQueue st !! uid) as [[|c cs]|] eqn:Hq; simpl.
  - done.
  - by rewrite emits_queue, lookup_delete_eq.
  - done.
Qed.

Lemma fire_conserves uid t st :
  sentTo uid (effects (fire t st)) ++ queued uid (fire t st)
  = sentTo uid (effects st) ++ queued uid st.
Proof.
  unfold fire, queued.
  set (st1 := clearTimeout (handle t) (setNow (Nat.max (now st) (deadline t)) st)).
  assert (He : effects st1 = effects st) by done.
  assert (Hq : iceCandidateQueue st1 = iceCandidateQueue st) by done.
  rewrite flush_effects, sentTo_app, sentTo_emits, He, Hq.
  case_bool_decide as Hk.
  - rewrite <- Hk, flush_queue. by rewrite app_nil_r.
  - rewrite flush_queue_other, Hq by done. by rewrite app_nil_r.
Qed.

Lemma advance_conserves uid fuel until st :
  sentTo uid (effects (advance fuel until st)) ++ queued uid (advance fuel until st)
  = sentTo uid (effects st) ++ queued uid st.
Proof.
  revert st. induction fuel as [|fuel IH]; intros st; simpl;
    destruct (nextDue until (timeouts st)); try done.
  by rewrite IH, fire_conserves.
Qed.

Lemma onicecandidate_conserves uid peer c st :
  sentTo uid (effects (onicecandidate peer (Some c) st))
    ++ queued uid (onicecandidate peer (Some c) st)
  = sentTo uid (effects st) ++ queued uid st
    ++ (if bool_decide (peer = uid) then [c] else []).
Proof.
  assert (He : effects (onicecandidate peer (Some c) st) = effects st).
  { unfold onicecandidate. simpl. by destruct (iceCandidateTimers st !! peer). }
  assert (Hq : iceCandidateQueue (onicecandidate peer (Some c) st)
               = <[peer := default [] (iceCandidateQueue st !! peer) ++ [c]]>
                   (iceCandidateQueue st)).
  { unfold onicecandidate. simpl. by destruct (iceCandidateTimers st !! peer). }
  rewrite He. unfold queued. rewrite Hq. f_equal.
  case_bool_decide as Hp.
  - subst. by rewrite lookup_insert_eq.
  - rewrite lookup_insert_ne by done. by rewrite app_nil_r.
Qed.

Lemma emit_conserves uid m st :
  (∀ room c, m ≠ Out_ice_candidate room uid c) →
  sentTo uid (effects (emit m st)) ++ queued uid (emit m st)
  = sentTo uid (effects st) ++ queued uid st.
Proof.
  intros H. unfold emit. rewrite sentTo_perform; [done|].
  intros room c [= Hm]. by destruct (H room c).
Qed.

Lemma act_conserves uid a st :
  sentTo uid (effects (act a st)) ++ queued uid (act a st)
  = sentTo uid (effects st) ++ queued uid st ++ gathered uid [Local a] st.
Proof.
  destruct a as [peer streams|peer [c|]|peer peerName sdp|peer sdp|newTrack
                 |user|user|k isOn|isSharing|ms];
    cbn [act gathered]; rewrite ?app_nil_r.
  - by case_bool_decide.
  - case_bool_decide as Hpc.
    + rewrite onicecandidate_conserves. do 2 f_equal.
      case_bool_decide as Hu.
      * by rewrite bool_decide_eq_true_2.
      * rewrite bool_decide_eq_false_2; [done|]. by intros [? _].
    + rewrite bool_decide_eq_false_2; [by rewrite app_nil_r|]. by intros [_ ?].
  - by case_bool_decide.
  - by apply emit_conserves.
  - by apply emit_conserves.
  - done.
  - by apply (emit_conserves uid (Out_admit_user user roomId)).
  - by apply (emit_conserves uid (Out_reject_user user roomId)).
  - by apply emit_conserves.
  - by apply emit_conserves.
  - apply advance_conserves.
Qed.

Lemma step_conserves uid s st :
  sentTo uid (effects (step s st)) ++ queued uid (step s st)
  = sentTo uid (effects st) ++ queued uid st ++ gathered uid [s] st.
Proof.
  destruct s as [e|a]; [|apply act_conserves].
  cbn [step gathered]. rewrite !app_nil_r. unfold deliver. case_match; [|done].
  rewrite (handle_event_quiet _ (sendOnly_sentTo uid)). unfold queued.
  by rewrite (handle_event_keeps _ handlerFree_queue).
Qed.

Lemma run_conserves uid steps st :
  sentTo uid (effects (run steps st)) ++ queued uid (run steps st)
  = sentTo uid (effects st) ++ queued uid st ++ gathered uid steps st.
Proof.
  revert st. induction steps as [|s steps IH]; intros st.
  - simpl. by rewrite app_nil_r.
  - change (run (s :: steps) st) with (run steps (step s st)).
    rewrite IH, app_assoc, step_conserves.
    change (gathered uid (s :: steps) st)
      with (match s with
            | Local (OnIceCandidate peer (Some c)) =>
                if bool_decide (peer = uid ∧ is_Some (peersRef st !! peer))
                then [c] else []
            | _ => []
            end ++ gathered uid steps (step s st)).
    cbn [gathered]. rewrite !app_nil_r. by rewrite <- !app_assoc.
Qed.


(** ** Every queue is flushed in time *)

Lemma queuesArmed_ext st st' :
  iceCandidateQueue st' = iceCandidateQueue st → timeouts st' = timeouts st →
  now st ≤ now st' → queuesArmed st → queuesArmed st'.
Proof.
  intros Hq Ht Hn [Ha Hb]. split.
  - intros uid q. rewrite Hq, Ht. apply Ha.
  - intros t. rewrite Ht. intros Hin. specialize (Hb t Hin). lia.
Qed.

Lemma fire_queuesArmed t st :
  timersInSync st → queuesArmed st → t ∈ timeouts st → queuesArmed (fire t st).
Proof.
  intros Hsync [Ha Hb] Ht. unfold fire.
  set (st1 := clearTimeout (handle t) (setNow (Nat.max (now st) (deadline t)) st)).
  assert (Hq1 : iceCandidateQueue st1 = iceCandidateQueue st) by done.
  split.
  - intros uid q Hl. destruct (decide (key t = uid)) as [<-|Hne].
    + rewrite flush_queue_lookup, Hq1 in Hl.
      destruct (iceCandidateQueue st !! key t) as [[|c cs]|] eqn:Hq; try done.
      by destruct (Ha _ _ Hq) as [? _].
    + rewrite flush_queue_other, Hq1 in Hl by done.
      destruct (Ha uid q Hl) as [Hne' (u & Hu & Hk)]. split; [done|].
      exists u. rewrite flush_timeouts. split; [|done].
      apply elem_of_clear. split; [done|]. intros Hh.
      apply Hne. rewrite <- Hk. f_equal. symmetry.
      by apply (handle_inj st u t).
  - intros u. rewrite flush_timeouts, flush_now. intros Hu.
    apply elem_of_clear in Hu as [Hu _]. specialize (Hb u Hu). simpl. lia.
Qed.

Lemma advance_queuesArmed fuel until st :
  timersInSync st → queuesArmed st → queuesArmed (advance fuel until st).
Proof.
  revert st. induction fuel as [|fuel IH]; intros st Hs Hq; simpl;
    destruct (nextDue until (timeouts st)) as [t|] eqn:Hd; try done.
  - apply (queuesArmed_ext st); simpl; try done. lia.
  - apply nextDue_elem in Hd as [Ht _].
    apply IH; [by apply fire_timersInSync|by apply fire_queuesArmed].
  - apply (queuesArmed_ext st); simpl; try done. lia.
Qed.

Lemma onicecandidate_queuesArmed uid c st :
  timersInSync st → queuesArmed st → queuesArmed (onicecandidate uid c st).
Proof.
  intros Hsync [Ha Hb]. destruct c as [c|]; [|done].
  destruct (onicecandidate_rearm uid c st Hsync)
    as (Hto & _ & Hq & _ & Hn & _).
  split.
  - intros uid' q. rewrite Hq, Hto. destruct (decide (uid = uid')) as [<-|Hne].
    + rewrite lookup_insert_eq. intros [= <-]. split.
      * by destruct (default [] (iceCandidateQueue st !! uid)).
      * eexists. split; [apply elem_of_app; right; by apply list_elem_of_singleton|done].
    + rewrite lookup_insert_ne by done. intros Hl.
      destruct (Ha uid' q Hl) as [Hq' (u & Hu & Hk)]. split; [done|].
      exists u. split; [|done]. apply elem_of_app. left.
      apply list_elem_of_In, filter_In. split; [by apply list_elem_of_In|].
      apply negb_true_iff, bool_decide_eq_false_2. congruence.
  - intros u. rewrite Hto, Hn. intros Hu. apply elem_of_app in Hu as [Hu|Hu].
    + apply list_elem_of_In, filter_In in Hu as [Hu _].
      apply Hb. by apply list_elem_of_In.
    + apply list_elem_of_singleton in Hu as ->. simpl. lia.
Qed.

Lemma handlerFree_flushPart :
  handlerFree (λ st, (iceCandidateQueue st, timeouts st, now st)).
Proof. repeat split. Qed.

Lemma step_queuesArmed s st :
  timersInSync st → queuesArmed st → queuesArmed (step s st).
Proof.
  intros Hsync Hq. destruct s as [e|a]; simpl.
  - pose proof (deliver_keeps _ handlerFree_flushPart e st) as H.
    injection H as H1 H2 H3. apply (queuesArmed_ext st); try done. lia.
  - destruct a; simpl; try done; try (case_bool_decide; try done).
    + by apply onicecandidate_queuesArmed.
    + by apply advance_queuesArmed.
Qed.

Lemma run_queuesArmed steps : queuesArmed (run steps mounted).
Proof.
  induction steps as [|s steps IH] using rev_ind.
  - split; simpl.
    + intros uid q Hl. by rewrite lookup_empty in Hl.
    + intros t Ht. by apply elem_of_nil in Ht.
  - rewrite run_snoc. apply step_queuesArmed; [apply run_timersInSync|done].
Qed.

Lemma advance_timeouts_subset fuel until st t :
  t ∈ timeouts (advance fuel until st) → t ∈ timeouts st.
Proof.
  revert st. induction fuel as [|fuel IH]; intros st; simpl;
    destruct (nextDue until (timeouts st)) as [u|]; try done.
  intros Ht. apply IH in Ht. unfold fire in Ht. rewrite flush_timeouts in Ht.
  simpl in Ht. by apply elem_of_clear in Ht as [Ht _].
Qed.


(** ** A peer leaves *)

Lemma filter_filter_same {A} (f : A → bool) (l : list A) :
  List.filter f (List.filter f l) = List.filter f l.
Proof.
  apply filter_all. intros a Ha.
  by apply list_elem_of_In, filter_In in Ha as [_ Ha].
Qed.

(** X8. Handling user-left twice for a peer is handling it once. For a
    peer that has no connection nothing is closed. The other connections
    are kept, and so are the candidates queued for the peer that left and
    the timer armed for them: when that timer fires, they are still sent
    to it. *)
Theorem user_left_once (data : UserInfo) (st : State) :
  let st' := handle_event (In_user_left data) st in
  handle_event (In_user_left data) st' = st'
  ∧ (peersRef st !! userId data = None →
     effects st' = effects st ∧ peersRef st' = peersRef st)
  ∧ (∀ uid, uid ≠ userId data → peersRef st' !! uid = peersRef st !! uid)
  ∧ iceCandidateQueue st' = iceCandidateQueue st
  ∧ timeouts st' = timeouts st
  ∧ iceCandidateTimers st' = iceCandidateTimers st
  ∧ ∀ t, key t = userId data →
         iceSent (effects (fire t st'))
         = iceSent (effects st)
           ++ ((λ c, (Nat.max (now st) (deadline t), userId data, c))
               <$> queued (userId data) st).
Proof.
  cbn [handle_event].
  assert (Hq : iceCandidateQueue (on_user_left data st) = iceCandidateQueue st).
  { apply (handle_event_keeps _ handlerFree_queue (In_user_left data)). }
  assert (Hn : now (on_user_left data st) = now st).
  { apply (handle_event_keeps _ handlerFree_now (In_user_left data)). }
  assert (Ht : timerPart (on_user_left data st) = timerPart st).
  { apply (handle_event_keeps _ handlerFree_timerPart (In_user_left data)). }
  injection Ht as Ht1 Ht2 Ht3.
  split; [|split; [|split; [|split; [|split; [|split]]]]]; try done.
  - destruct (on_user_left_gone data st) as [_ Hgone].
    unfold on_user_left at 1. rewrite Hgone.
    unfold on_user_left, setParticipants. simpl.
    destruct (peersRef st !! userId data); simpl; by rewrite filter_filter_same.
  - intros Hl. unfold on_user_left. by rewrite Hl.
  - intros uid Hne. unfold on_user_left.
    destruct (peersRef st !! userId data); simpl; [|done].
    by rewrite lookup_delete_ne.
  - intros t Hk. unfold fire.
    set (st1 := clearTimeout (handle t)
                  (setNow (Nat.max (now (on_user_left data st)) (deadline t))
                     (on_user_left data st))).
    assert (He1 : effects st1 = effects (on_user_left data st)) by done.
    assert (Hq1 : iceCandidateQueue st1 = iceCandidateQueue st) by done.
    assert (Hn1 : now st1 = Nat.max (now st) (deadline t)).
    { unfold st1. change (now (clearTimeout (handle t)
                  (setNow (Nat.max (now (on_user_left data st)) (deadline t))
                     (on_user_left data st))))
        with (Nat.max (now (on_user_left data st)) (deadline t)).
      by rewrite Hn. }
    rewrite flush_effects, iceSent_app, iceSent_emits, He1, Hq1, Hn1, Hk.
    f_equal. unfold iceSent, on_user_left.
    destruct (peersRef st !! userId data); simpl; [|done].
    rewrite omap_app. simpl. by rewrite app_nil_r.
Qed.

(** ** Requests that are decided *)

(** X9. A join request from a user who has none pending, followed by
    admitting or by rejecting that user, leaves the pending queue as it
    was before the request, the other requests in their order. *)
Theorem request_then_decision (data : UserInfo) (st : State) :
  userId data ∉ userId <$> pendingRequests st →
  pendingRequests
    (admitUser (userId data) (handle_event (In_join_request data) st))
  = pendingRequests st
  ∧ pendingRequests
      (rejectUser (userId data) (handle_event (In_join_request data) st))
    = pendingRequests st.
Proof.
  intros Hnew. simpl.
  assert (H : List.filter (λ req, negb (bool_decide (userId req = userId data)))
                (pendingRequests st ++ [data]) = pendingRequests st).
  { rewrite List.filter_app. simpl.
    rewrite bool_decide_eq_true_2 by done. simpl.
    rewrite app_nil_r. by apply filter_other_id. }
  done.
Qed.

(** ** Leaving the room *)

Lemma closes_keep {X} (proj : State → X) (ks : list string) st :
  (∀ e st, proj (perform e st) = proj st) →
  proj (foldl (λ st uid, perform (PcClose uid) st) st ks) = proj st.
Proof.
  intros Hp. revert st. induction ks as [|k ks IH]; intros st; simpl; [done|].
  by rewrite IH, Hp.
Qed.

Lemma closes_counts uid (ks : list string) st :
  NoDup ks →
  opened uid (effects (foldl (λ st k, perform (PcClose k) st) st ks))
  = opened uid (effects st)
  ∧ closed uid (effects (foldl (λ st k, perform (PcClose k) st) st ks))
    = closed uid (effects st) + (if bool_decide (uid ∈ ks) then 1 else 0).
Proof.
  intros Hnd. revert st. induction Hnd as [|k ks Hk Hnd IH]; intros st; simpl.
  - split; [done|lia].
  - destruct (IH (perform (PcClose k) st)) as [-> ->]. simpl.
    rewrite opened_snoc, closed_snoc.
    rewrite (bool_decide_eq_false_2 (PcClose k = PcNew uid)) by done.
    split; [lia|]. destruct (decide (k = uid)) as [->|Hne].
    + rewrite (bool_decide_eq_true_2 (PcClose uid = PcClose uid)) by done.
      rewrite (bool_decide_eq_false_2 (uid ∈ ks)) by done.
      rewrite (bool_decide_eq_true_2 (uid ∈ uid :: ks)) by left. lia.
    + rewrite (bool_decide_eq_false_2 (PcClose k = PcClose uid)) by congruence.
      case_bool_decide as Hin.
      * rewrite (bool_decide_eq_true_2 (uid ∈ k :: ks)) by by right. lia.
      * rewrite (bool_decide_eq_false_2 (uid ∈ k :: ks)); [lia|].
        intros H. apply elem_of_cons in H as [->|H]; done.
Qed.

Lemma clears_timeouts (hs : list positive) st :
  timeouts (foldl (λ st h, clearTimeout h st) st hs)
  = List.filter (λ t, negb (bool_decide (handle t ∈ hs))) (timeouts st).
Proof.
  revert st. induction hs as [|h hs IH]; intros st; simpl.
  - symmetry. by apply filter_all.
  - rewrite IH. simpl. induction (timeouts st) as [|t ts IHts]; simpl; [done|].
    destruct (Pos.eqb_spec (handle t) h) as [Heq|Hne]; simpl.
    + rewrite (bool_decide_eq_true_2 (handle t ∈ h :: hs)) by (rewrite Heq; left).
      simpl. apply IHts.
    + case_bool_decide as Hin; simpl.
      * rewrite (bool_decide_eq_true_2 (handle t ∈ h :: hs)) by by right.
        simpl. apply IHts.
      * rewrite (bool_decide_eq_false_2 (handle t ∈ h :: hs)); simpl.
        -- f_equal. apply IHts.
        -- intros H. apply elem_of_cons in H as [H|H]; done.
Qed.

Lemma clears_keep {X} (proj : State → X) (hs : list positive) st :
  (∀ f st, proj (setTimeouts f st) = proj st) →
  proj (foldl (λ st h, clearTimeout h st) st hs) = proj st.
Proof.
  intros Hp. revert st. induction hs as [|h hs IH]; intros st; simpl; [done|].
  rewrite IH. apply Hp.
Qed.

Lemma listeners_off (evs : list string) s :
  listeners (foldl (λ s ev, socket_off ev s) s evs)
  = List.filter (λ x, negb (bool_decide (x ∈ evs))) (listeners s).
Proof.
  revert s. induction evs as [|ev evs IH]; intros s; simpl.
  - symmetry. by apply filter_all.
  - rewrite IH. simpl. induction (listeners s) as [|x xs IHxs]; simpl; [done|].
    case_bool_decide as Hx; simpl.
    + rewrite (bool_decide_eq_true_2 (x ∈ ev :: evs)) by (rewrite Hx; left).
      simpl. apply IHxs.
    + case_bool_decide as Hin; simpl.
      * rewrite (bool_decide_eq_true_2 (x ∈ ev :: evs)) by by right.
        simpl. apply IHxs.
      * rewrite (bool_decide_eq_false_2 (x ∈ ev :: evs)); simpl.
        -- f_equal. apply IHxs.
        -- intros H. apply elem_of_cons in H as [H|H]; done.
Qed.

Lemma listeners_on (evs : list string) s :
  listeners (foldl (λ s ev, socket_on ev s) s evs) = listeners s ++ evs
  ∧ hookState (foldl (λ s ev, socket_on ev s) s evs) = hookState s
  ∧ leaveRooms (foldl (λ s ev, socket_on ev s) s evs) = leaveRooms s.
Proof.
  revert s. induction evs as [|ev evs IH]; intros s; simpl.
  - by rewrite app_nil_r.
  - destruct (IH (socket_on ev s)) as (-> & -> & ->). simpl.
    by rewrite <- app_assoc.
Qed.

Lemma closeAll_spec st :
  peersRef (closeAll st) = ∅
  ∧ (∀ uid, opened uid (effects (closeAll st)) = opened uid (effects st)
            ∧ closed uid (effects (closeAll st))
              = closed uid (effects st)
                + (if peersRef st !! uid is Some _ then 1 else 0)).
Proof.
  unfold closeAll. split; [done|]. intros uid. simpl.
  destruct (closes_counts uid (map_to_list (peersRef st)).*1 st
              (NoDup_fst_map_to_list _)) as [-> ->].
  split; [done|]. f_equal.
  destruct (peersRef st !! uid) as [pc|] eqn:Hl.
  - rewrite bool_decide_eq_true_2; [done|].
    apply list_elem_of_fmap. exists (uid, pc). split; [done|].
    by apply elem_of_map_to_list.
  - rewrite bool_decide_eq_false_2; [done|].
    intros Hin. apply list_elem_of_fmap in Hin as ([k pc] & -> & Hin).
    apply elem_of_map_to_list in Hin. simpl in Hl. congruence.
Qed.

Lemma clearQueues_timeouts st :
  timersInSync st → timeouts (clearQueues st) = [].
Proof.
  intros (H1 & _ & _). unfold clearQueues. simpl. rewrite clears_timeouts.
  destruct (List.filter _ (timeouts st)) as [|t ts] eqn:Hf; [done|].
  assert (Ht : In t (List.filter
                       (λ t, negb (bool_decide
                          (handle t ∈ (map_to_list (iceCandidateTimers st)).*2)))
                       (timeouts st))) by (rewrite Hf; by left).
  apply filter_In in Ht as [Ht Hn]. apply list_elem_of_In in Ht.
  apply negb_true_iff, bool_decide_eq_false in Hn. destruct Hn.
  destruct (H1 t Ht) as [Hl _]. apply list_elem_of_fmap.
  exists (key t, handle t). split; [done|]. by apply elem_of_map_to_list.
Qed.

Lemma elapse_idle ms st : timeouts st = [] → effects (elapse ms st) = effects st.
Proof. intros H. unfold elapse, nextDue. rewrite H. simpl. unfold nextDue. by rewrite H. Qed.

(** X10. When the effect is cleaned up after any run, every connection
    held is closed, so that each peer has as many connections closed as
    made; the connection map, the candidate queues, the timer handles and
    the timer table are empty; one leave-room message for the room is
    sent and no listener stays registered. The roster, the pending
    requests, the status and the socket connection are left as they
    were. Afterwards no inbound event changes anything, and however much
    time passes nothing more is done: no candidate is sent after
    leaving. *)
Theorem cleanup_releases_everything (steps : list Step)
    (left : list (nat * string)) :
  let st := run steps mounted in
  let s' := useEffect_cleanup
              {| hookState := st; listeners := subscribed; leaveRooms := left |} in
  let st' := hookState s' in
  (peersRef st' = ∅ ∧ iceCandidateQueue st' = ∅
   ∧ iceCandidateTimers st' = ∅ ∧ timeouts st' = [])
  ∧ (∀ uid, opened uid (effects st') = closed uid (effects st'))
  ∧ (leaveRooms s' = left ++ [(now st, roomId)] ∧ listeners s' = [])
  ∧ (participants st' = participants st
     ∧ pendingRequests st' = pendingRequests st
     ∧ connectionStatus st' = connectionStatus st
     ∧ connected st' = connected st)
  ∧ (∀ e, dispatch e s' = s')
  ∧ (∀ ms, effects (elapse ms st') = effects st').
Proof.
  intros st s' st'.
  assert (Hst' : st' = clearQueues (closeAll st)) by reflexivity.
  assert (Hls : listeners s' = []) by reflexivity.
  assert (Hto : timeouts st' = []).
  { rewrite Hst'. apply clearQueues_timeouts.
    apply (timersInSync_ext st); [|apply run_timersInSync].
    symmetry. apply (closes_keep timerPart _ _ (λ e st, eq_refl)). }
  destruct (closeAll_spec st) as [Hpeers Hcounts].
  split; [|split; [|split; [|split; [|split]]]].
  - rewrite Hst'. repeat split; try done.
    unfold clearQueues. simpl.
    by rewrite (clears_keep peersRef _ _ (λ f st, eq_refl)).
  - intros uid. rewrite Hst'. unfold clearQueues. simpl.
    rewrite (clears_keep effects _ _ (λ f st, eq_refl)).
    destruct (Hcounts uid) as [-> ->]. apply run_pcsInSync.
  - split; [reflexivity|done].
  - rewrite Hst'. unfold clearQueues, closeAll. simpl.
    rewrite (clears_keep participants _ _ (λ f st, eq_refl)),
      (clears_keep pendingRequests _ _ (λ f st, eq_refl)),
      (clears_keep connectionStatus _ _ (λ f st, eq_refl)),
      (clears_keep connected _ _ (λ f st, eq_refl)). simpl.
    by rewrite (closes_keep participants _ _ (λ e st, eq_refl)),
      (closes_keep pendingRequests _ _ (λ e st, eq_refl)),
      (closes_keep connectionStatus _ _ (λ e st, eq_refl)),
      (closes_keep connected _ _ (λ e st, eq_refl)).
  - intros e. unfold dispatch.
    destruct (connected (hookState s')); reflexivity.
  - intros ms. by apply elapse_idle.
Qed.

(** ** Runs of the effect, one after the other *)

Lemma useEffect_body_spec s :
  listeners (useEffect_body s) = listeners s ++ subscribed
  ∧ hookState (useEffect_body s) = useEffect_mount (hookState s)
  ∧ leaveRooms (useEffect_body s) = leaveRooms s.
Proof.
  unfold useEffect_body.
  destruct (listeners_on subscribed
    {| hookState := useEffect_mount (hookState s);
       listeners := listeners s; leaveRooms := leaveRooms s |})
    as (Hl & Hh & Hr).
  by rewrite Hl, Hh, Hr.
Qed.

Lemma useEffect_cleanup_hookState s :
  hookState (useEffect_cleanup s) = clearQueues (closeAll (hookState s)).
Proof. reflexivity. Qed.

Lemma useEffect_cleanup_leaveRooms s :
  leaveRooms (useEffect_cleanup s)
  = leaveRooms s ++ [(now (hookState s), roomId)].
Proof. reflexivity. Qed.

Lemma useEffect_cleanup_listeners s :
  (∀ x, x ∈ listeners s → x ∈ subscribed) →
  listeners (useEffect_cleanup s) = [].
Proof.
  intros Hsub. unfold useEffect_cleanup. cbn [listeners].
  rewrite listeners_off.
  destruct (List.filter _ (listeners s)) as [|x xs] eqn:Hf; [done|].
  assert (Hx : In x (List.filter
                       (λ x, negb (bool_decide (x ∈ unsubscribed)))
                       (listeners s))) by (rewrite Hf; by left).
  apply filter_In in Hx as [Hx Hn]. apply list_elem_of_In, Hsub in Hx.
  apply negb_true_iff, bool_decide_eq_false in Hn. destruct Hn.
  unfold subscribed in Hx. unfold unsubscribed.
  repeat (apply elem_of_cons in Hx as [->|Hx];
          [repeat (first [left; done | right])|]).
  by apply elem_of_nil in Hx.
Qed.

(** What the cleanup leaves alone in the state of the hook: whatever
    neither an effect, nor the timer table, nor the three maps carry. *)
Lemma cleanup_keeps {X} (proj : State → X) st :
  (∀ e st, proj (perform e st) = proj st) →
  (∀ f st, proj (setTimeouts f st) = proj st) →
  (∀ f st, proj (setPeers f st) = proj st) →
  (∀ f st, proj (setQueue f st) = proj st) →
  (∀ f st, proj (setTimers f st) = proj st) →
  proj (clearQueues (closeAll st)) = proj st.
Proof.
  intros Hp Ht Hpeers Hq Htm. unfold clearQueues, closeAll.
  by rewrite Hq, Htm, (clears_keep proj _ _ Ht), Hpeers, (closes_keep proj _ _ Hp).
Qed.

Lemma cleanup_status st :
  connectionStatus (clearQueues (closeAll st)) = connectionStatus st.
Proof. by apply cleanup_keeps. Qed.

Lemma cleanup_connected st :
  connected (clearQueues (closeAll st)) = connected st.
Proof. by apply cleanup_keeps. Qed.

Lemma cleanup_now st : now (clearQueues (closeAll st)) = now st.
Proof. by apply cleanup_keeps. Qed.

Lemma cleanup_participants st :
  participants (clearQueues (closeAll st)) = participants st.
Proof. by apply cleanup_keeps. Qed.

Lemma cleanup_pendingRequests st :
  pendingRequests (clearQueues (closeAll st)) = pendingRequests st.
Proof. by apply cleanup_keeps. Qed.

Lemma render_status b c : status (render b c) = status c.
Proof.
  unfold status, render.
  destruct (hasCleanup c), b; cbn [session];
    rewrite ?(proj1 (proj2 (useEffect_body_spec _)));
    change (connectionStatus (useEffect_mount ?st)) with (connectionStatus st);
    rewrite ?useEffect_cleanup_hookState, ?cleanup_status; reflexivity.
Qed.

Lemma render_online b c :
  online (render b c) = if b then true else online c.
Proof.
  unfold online, render.
  destruct (hasCleanup c), b; cbn [session];
    rewrite ?(proj1 (proj2 (useEffect_body_spec _)));
    try reflexivity.
  by rewrite useEffect_cleanup_hookState, cleanup_connected.
Qed.

Lemma dispatch_listeners e s : listeners (dispatch e s) = listeners s.
Proof. unfold dispatch. by destruct (connected (hookState s)). Qed.

Lemma dispatch_once e s :
  listeners s = subscribed →
  hookState (dispatch e s) = deliver e (hookState s).
Proof.
  intros Hl. unfold dispatch, deliver.
  destruct (connected (hookState s)); [|done].
  cbn [hookState]. rewrite Hl. by destruct e.
Qed.

Lemma dispatch_none e s : listeners s = [] → dispatch e s = s.
Proof.
  intros Hl. unfold dispatch. destruct (connected (hookState s)); [|done].
  destruct s as [st ls rooms]. simpl in *. by subst ls.
Qed.

Lemma play_snoc moves m c : play (moves ++ [m]) c = turn m (play moves c).
Proof. unfold play. by rewrite foldl_app. Qed.

(** Between a body and the next cleanup every event has its one
    listener; outside, none has any. *)
Lemma play_listeners moves :
  listeners (session (play moves unmounted))
  = if hasCleanup (play moves unmounted) then subscribed else [].
Proof.
  induction moves as [|m moves IH] using rev_ind; [done|].
  rewrite play_snoc. set (c := play moves unmounted) in *.
  destruct m as [e|a|b]; cbn [turn session hasCleanup].
  - by rewrite dispatch_listeners.
  - done.
  - assert (Hnone : listeners (if hasCleanup c
                               then useEffect_cleanup (session c)
                               else session c) = []).
    { destruct (hasCleanup c); [|done].
      apply useEffect_cleanup_listeners. intros x. by rewrite IH. }
    unfold render. destruct b; cbn [session hasCleanup]; [|done].
    by rewrite (proj1 (useEffect_body_spec _)), Hnone.
Qed.

(** The socket hands an event to its handler once during a run of the
    effect, and to nothing outside of one. *)
Lemma receive_delivers moves e :
  let c := play moves unmounted in
  hookState (session (turn (Receive e) c))
  = if hasCleanup c then deliver e (hookState (session c))
    else hookState (session c).
Proof.
  intros c. pose proof (play_listeners moves) as Hl. fold c in Hl.
  cbn [turn session]. destruct (hasCleanup c).
  - by apply dispatch_once.
  - by rewrite dispatch_none.
Qed.

(** X11. Over every run of the component (events received, local
    actions, renders that run the effect again), each inbound event has
    exactly one listener from a body of the effect to the next cleanup,
    and none outside: the socket hands an event to its handler once, and
    only while it is connected, or to nobody. A render with a local
    stream runs the pending cleanup, if any, and the body: the socket is
    connected again and join-room is sent last, while the connection
    status, the roster and the pending requests are those the run before
    left; one leave-room is recorded if there was a cleanup. A render
    without a local stream runs the cleanup only and leaves the socket as
    it is. A cleanup removes the listeners of every event the body
    subscribes to, also when there are several of one event. *)
Theorem listeners_registered_once (moves : list Move) :
  let c := play moves unmounted in
  let st := hookState (session c) in
  listeners (session c) = (if hasCleanup c then subscribed else [])
  ∧ (∀ e, List.filter (λ x, bool_decide (x = eventName e)) (listeners (session c))
          = if hasCleanup c then [eventName e] else [])
  ∧ (∀ e, hookState (session (turn (Receive e) c))
          = if hasCleanup c then deliver e st else st)
  ∧ (let c' := turn (Render true) c in
     let st' := hookState (session c') in
     hasCleanup c' = true ∧ listeners (session c') = subscribed
     ∧ connected st' = true
     ∧ connectionStatus st' = connectionStatus st
     ∧ participants st' = participants st
     ∧ pendingRequests st' = pendingRequests st
     ∧ last (effects st') = Some (now st, Emit (Out_join_room roomId localUserName))
     ∧ leaveRooms (session c')
       = leaveRooms (session c)
         ++ (if hasCleanup c then [(now st, roomId)] else []))
  ∧ (let c' := turn (Render false) c in
     let st' := hookState (session c') in
     hasCleanup c' = false ∧ listeners (session c') = []
     ∧ connected st' = connected st
     ∧ connectionStatus st' = connectionStatus st)
  ∧ (∀ s, (∀ x, x ∈ listeners s → x ∈ subscribed) →
          listeners (useEffect_cleanup s) = []).
Proof.
  intros c st.
  pose proof (play_listeners moves) as Hl. fold c in Hl.
  pose proof (play_listeners (moves ++ [Render true])) as Hl1.
  pose proof (play_listeners (moves ++ [Render false])) as Hl0.
  rewrite play_snoc in Hl1, Hl0. fold c in Hl1, Hl0.
  split; [done|]. split; [|split; [|split; [|split]]].
  - intros e. rewrite Hl. destruct (hasCleanup c); by destruct e.
  - intros e. apply receive_delivers.
  - intros c' st'.
    assert (Hc : hasCleanup c' = true) by reflexivity.
    fold c' in Hl1. rewrite Hc in Hl1.
    pose proof (render_status true c) as Hs.
    pose proof (render_online true c) as Ho.
    split; [done|]. split; [done|]. split; [done|]. split; [done|].
    subst st' c'. cbn [turn]. unfold render. cbn [session].
    rewrite !(proj1 (proj2 (useEffect_body_spec _))),
      !(proj2 (proj2 (useEffect_body_spec _))).
    unfold useEffect_mount, emit. simpl. rewrite last_snoc.
    destruct (hasCleanup c).
    + rewrite useEffect_cleanup_hookState, useEffect_cleanup_leaveRooms,
        cleanup_participants, cleanup_pendingRequests, cleanup_now. done.
    + by rewrite app_nil_r.
  - intros c' st'.
    assert (Hc : hasCleanup c' = false) by reflexivity.
    fold c' in Hl0. rewrite Hc in Hl0.
    pose proof (render_status false c) as Hs.
    pose proof (render_online false c) as Ho.
    done.
  - apply useEffect_cleanup_listeners.
Qed.

(** ** The connection status across runs of the effect *)

(** While the socket is disconnected and the effect does not run again
    with a stream, nothing connects the socket or changes the status. *)
Lemma offline_stays more c :
  online c = false → Render true ∉ more →
  online (play more c) = false ∧ status (play more c) = status c.
Proof.
  intros Hc. induction more as [|m more IH] using rev_ind; [done|].
  intros Hno. rewrite play_snoc.
  destruct IH as [IHc IHs].
  { intros H. apply Hno, elem_of_app. by left. }
  destruct m as [e|a|b].
  - unfold online, status in *. cbn [turn session]. unfold dispatch.
    by rewrite IHc.
  - unfold online, status in *. cbn [turn session onHook hookState].
    by rewrite act_connected, act_status.
  - cbn [turn]. rewrite render_status, render_online. destruct b; [|done].
    destruct Hno. apply elem_of_app. right. left.
Qed.

(** C1, as amended. Over every run of the component (events received,
    local actions, renders that run the effect again), each step moves
    the connection status forward or leaves it alone, with two
    exceptions, both of events the socket delivers: waiting-for-approval
    received while joined moves the status back to waiting, and
    waiting-for-approval, join-approved or existing-users received on a
    rejected hook whose socket is connected again moves it to waiting or
    joined. The step that enters rejected is a join-rejected
    event and disconnects the socket; while the status is rejected and
    the socket disconnected, nothing changes the status or connects the
    socket until the body of the effect runs again. That run keeps the
    status and connects the socket, so that a join approval received
    after it sets the status to joined, also from rejected. *)
Theorem status_forward_except_waiting (moves : list Move) (m : Move) :
  let c := play moves unmounted in
  let c' := turn m c in
  (forward (status c) (status c') = true
   ∨ (m = Receive In_waiting_for_approval
      ∧ status c = joined ∧ status c' = waiting)
   ∨ (status c = rejected ∧ online c = true
      ∧ (m = Receive In_waiting_for_approval ∧ status c' = waiting
         ∨ m = Receive In_join_approved ∧ status c' = joined
         ∨ ∃ users, m = Receive (In_existing_users users)
                    ∧ status c' = joined)))
  ∧ (status c ≠ rejected → status c' = rejected →
     m = Receive In_join_rejected ∧ online c' = false)
  ∧ (status c' = rejected → online c' = false →
     ∀ more, Render true ∉ more →
       status (play more c') = rejected ∧ online (play more c') = false)
  ∧ (let again := turn (Render true) c' in
     status again = status c'
     ∧ online again = true
     ∧ status (turn (Receive In_join_approved) again) = joined).
Proof.
  intros c c'.
  assert (Hstep : ∀ e, m = Receive e →
            status c' = status c ∧ online c' = online c
            ∨ (online c = true
               ∧ status c' = connectionStatus (handle_event e (hookState (session c)))
               ∧ online c' = connected (handle_event e (hookState (session c))))).
  { intros e ->. subst c'. unfold status, online.
    pose proof (receive_delivers moves e) as Hr. cbv zeta in Hr. fold c in Hr.
    rewrite Hr. destruct (hasCleanup c); [|by left].
    unfold deliver. destruct (connected (hookState (session c))) eqn:Hon.
    - right. done.
    - left. by rewrite Hon. }
  assert (Hother : (∀ e, m ≠ Receive e) → status c' = status c).
  { intros Hm. subst c'. destruct m as [e|a|b].
    - by destruct (Hm e).
    - unfold status. cbn [turn session onHook hookState]. apply act_status.
    - apply render_status. }
  split; [|split; [|split]].
  - destruct m as [e|a|b].
    + destruct (Hstep e eq_refl) as [[-> _]|(Hon & -> & _)].
      * left. by destruct (status c).
      * rewrite handle_event_status. fold (status c).
        destruct e, (status c) eqn:Hs; simpl;
          try (left; reflexivity); try (right; left; done);
          right; right; (split; [done|split; [done|]]); eauto 6.
    + left. rewrite Hother by done. by destruct (status c).
    + left. rewrite Hother by done. by destruct (status c).
  - intros Hnot Hrej. destruct m as [e|a|b].
    + destruct (Hstep e eq_refl) as [[Hs _]|(Hon & Hs & Ho)]; [congruence|].
      rewrite Ho, handle_event_connected.
      rewrite Hs, handle_event_status in Hrej. fold (status c) in Hrej.
      by destruct e.
    + rewrite Hother in Hrej by done. done.
    + rewrite Hother in Hrej by done. done.
  - intros Hrej Hoff more Hno.
    destruct (offline_stays more c' Hoff Hno) as [Ho Hs].
    by rewrite Hs.
  - intros again.
    pose proof (render_status true c') as Hs.
    pose proof (render_online true c') as Ho.
    split; [done|]. split; [done|].
    assert (Hagain : again = play (moves ++ [m; Render true]) unmounted).
    { subst again c' c. unfold play. by rewrite foldl_app. }
    unfold status. rewrite Hagain, (receive_delivers _ In_join_approved).
    rewrite <- Hagain.
    assert (Hc : hasCleanup again = true) by reflexivity.
    rewrite Hc. unfold deliver.
    change (connected (hookState (session again)))
      with (online (render true c')).
    by rewrite Ho.
Qed.

(** * The local media hook *)

Section MediaHook.

Import UseMediaStream.

Lemma flip_member t (d : gset string) :
  bool_decide (trackId t ∈ flip t d) = negb (bool_decide (trackId t ∈ d)).
Proof.
  unfold flip. destruct (bool_decide (trackId t ∈ d)); simpl.
  - apply bool_decide_eq_false_2. intros H. apply elem_of_difference in H as [_ H].
    apply H. by apply elem_of_singleton.
  - apply bool_decide_eq_true_2. apply elem_of_union. right.
    by apply elem_of_singleton.
Qed.

Lemma flip_other t (d : gset string) (x : string) :
  x ≠ trackId t → x ∈ flip t d ↔ x ∈ d.
Proof.
  intros Hne. unfold flip. destruct (bool_decide (trackId t ∈ d)).
  - rewrite elem_of_difference, elem_of_singleton. by split; [intros [? _]|].
  - rewrite elem_of_union, elem_of_singleton. split; [by intros [?|?]|by left].
Qed.

Lemma flip_flip t (d : gset string) : flip t (flip t d) = d.
Proof.
  unfold flip at 1. rewrite flip_member. unfold flip.
  destruct (bool_decide (trackId t ∈ d)) eqn:Hb; simpl.
  - apply bool_decide_eq_true in Hb. apply set_eq. intros x.
    rewrite elem_of_union, elem_of_difference, elem_of_singleton.
    destruct (decide (x = trackId t)) as [->|Hne]; intuition congruence.
  - apply bool_decide_eq_false in Hb. apply set_eq. intros x.
    rewrite elem_of_difference, elem_of_union, elem_of_singleton.
    destruct (decide (x = trackId t)) as [->|Hne]; intuition congruence.
Qed.

Lemma toggleMic_value h s t :
  stream h = Some s → head (getAudioTracks s) = Some t →
  toggleMic h
  = {| stream := stream h;
       isMicOn := negb (bool_decide (trackId t ∈ flip t (disabled h)));
       isCameraOn := isCameraOn h; isScreenSharing := isScreenSharing h;
       cameraStreamRef := cameraStreamRef h;
       screenStreamRef := screenStreamRef h;
       disabled := flip t (disabled h); stopped := stopped h |}.
Proof. intros Hs Ht. unfold toggleMic. by rewrite Hs, Ht. Qed.

Lemma toggleCamera_value h s t :
  stream h = Some s → head (getVideoTracks s) = Some t →
  toggleCamera h
  = {| stream := stream h; isMicOn := isMicOn h;
       isCameraOn := negb (bool_decide (trackId t ∈ flip t (disabled h)));
       isScreenSharing := isScreenSharing h;
       cameraStreamRef := cameraStreamRef h;
       screenStreamRef := screenStreamRef h;
       disabled := flip t (disabled h); stopped := stopped h |}.
Proof. intros Hs Ht. unfold toggleCamera. by rewrite Hs, Ht. Qed.

(** X12. Toggling the microphone without a stream, or with a stream that
    has no audio track, changes nothing. Otherwise it flips the enabled
    flag of the first audio track and of no other track, and sets
    [isMicOn] to the new value of that flag, whatever [isMicOn] was;
    the camera flag, the streams and the stopped tracks stay. Toggling
    twice puts every track back as it was. *)
Theorem toggleMic_flips_first_audio_track (h : Hook) :
  (stream h = None → toggleMic h = h)
  ∧ (∀ s, stream h = Some s → getAudioTracks s = [] → toggleMic h = h)
  ∧ (∀ s t, stream h = Some s → head (getAudioTracks s) = Some t →
       let h' := toggleMic h in
       enabled t h' = negb (enabled t h)
       ∧ isMicOn h' = enabled t h'
       ∧ (∀ u, trackId u ≠ trackId t → enabled u h' = enabled u h)
       ∧ isCameraOn h' = isCameraOn h
       ∧ stream h' = stream h
       ∧ stopped h' = stopped h
       ∧ disabled (toggleMic h') = disabled h
       ∧ isMicOn (toggleMic h') = enabled t h).
Proof.
  split; [|split].
  - intros Hs. unfold toggleMic. by rewrite Hs.
  - intros s Hs Hnone. unfold toggleMic. by rewrite Hs, Hnone.
  - intros s t Hs Ht h'.
    assert (Hh' : h' = {| stream := stream h;
                          isMicOn := negb (bool_decide
                                       (trackId t ∈ flip t (disabled h)));
                          isCameraOn := isCameraOn h;
                          isScreenSharing := isScreenSharing h;
                          cameraStreamRef := cameraStreamRef h;
                          screenStreamRef := screenStreamRef h;
                          disabled := flip t (disabled h);
                          stopped := stopped h |}).
    { subst h'. unfold toggleMic. by rewrite Hs, Ht. }
    assert (Htwice : toggleMic h'
                     = {| stream := stream h;
                          isMicOn := negb (bool_decide
                                       (trackId t ∈ flip t (flip t (disabled h))));
                          isCameraOn := isCameraOn h;
                          isScreenSharing := isScreenSharing h;
                          cameraStreamRef := cameraStreamRef h;
                          screenStreamRef := screenStreamRef h;
                          disabled := flip t (flip t (disabled h));
                          stopped := stopped h |}).
    { rewrite Hh'. unfold toggleMic. simpl. by rewrite Hs, Ht. }
    rewrite Htwice, Hh'. unfold enabled. simpl.
    rewrite flip_flip, flip_member.
    repeat split; try done.
    intros u Hu. f_equal. apply bool_decide_ext. by apply flip_other.
Qed.

(** X13. The same for the camera: the first video track of the stream
    is the one toggled, and [isCameraOn] follows it. *)
Theorem toggleCamera_flips_first_video_track (h : Hook) :
  (stream h = None → toggleCamera h = h)
  ∧ (∀ s, stream h = Some s → getVideoTracks s = [] → toggleCamera h = h)
  ∧ (∀ s t, stream h = Some s → head (getVideoTracks s) = Some t →
       let h' := toggleCamera h in
       enabled t h' = negb (enabled t h)
       ∧ isCameraOn h' = enabled t h'
       ∧ (∀ u, trackId u ≠ trackId t → enabled u h' = enabled u h)
       ∧ isMicOn h' = isMicOn h
       ∧ stream h' = stream h
       ∧ stopped h' = stopped h
       ∧ disabled (toggleCamera h') = disabled h
       ∧ isCameraOn (toggleCamera h') = enabled t h).
Proof.
  split; [|split].
  - intros Hs. unfold toggleCamera. by rewrite Hs.
  - intros s Hs Hnone. unfold toggleCamera. by rewrite Hs, Hnone.
  - intros s t Hs Ht h'.
    assert (Hh' : h' = {| stream := stream h; isMicOn := isMicOn h;
                          isCameraOn := negb (bool_decide
                                          (trackId t ∈ flip t (disabled h)));
                          isScreenSharing := isScreenSharing h;
                          cameraStreamRef := cameraStreamRef h;
                          screenStreamRef := screenStreamRef h;
                          disabled := flip t (disabled h);
                          stopped := stopped h |}).
    { subst h'. unfold toggleCamera. by rewrite Hs, Ht. }
    assert (Htwice : toggleCamera h'
                     = {| stream := stream h; isMicOn := isMicOn h;
                          isCameraOn := negb (bool_decide
                                          (trackId t ∈ flip t (flip t (disabled h))));
                          isScreenSharing := isScreenSharing h;
                          cameraStreamRef := cameraStreamRef h;
                          screenStreamRef := screenStreamRef h;
                          disabled := flip t (flip t (disabled h));
                          stopped := stopped h |}).
    { rewrite Hh'. unfold toggleCamera. simpl. by rewrite Hs, Ht. }
    rewrite Htwice, Hh'. unfold enabled. simpl.
    rewrite flip_flip, flip_member.
    repeat split; try done.
    intros u Hu. f_equal. apply bool_decide_ext. by apply flip_other.
Qed.

(** X14. [initializeMedia] asks the browser only when it holds no camera
    stream that is still active: with one, the answer of the browser
    does not matter and that stream is returned. With none, what the
    browser grants is returned, and when the browser refuses nothing
    changes and no stream is returned. When a stream is returned, this is
    the stream published and kept as camera stream, and both flags are
    set to on; no track is enabled, disabled or stopped. *)
Theorem initializeMedia_reuses_camera (granted : option MediaStream) (h : Hook) :
  let h' := (initializeMedia granted h).1 in
  let result := (initializeMedia granted h).2 in
  (∀ c, cameraStreamRef h = Some c → active c h = true →
        result = Some c ∧ initializeMedia granted h = initializeMedia None h)
  ∧ (∀ m, result = Some m →
          stream h' = Some m ∧ cameraStreamRef h' = Some m
          ∧ isMicOn h' = true ∧ isCameraOn h' = true)
  ∧ (result = None → h' = h ∧ granted = None)
  ∧ ((∀ c, cameraStreamRef h = Some c → active c h = false) →
     result = granted ∧ (granted = None → h' = h))
  ∧ disabled h' = disabled h
  ∧ stopped h' = stopped h
  ∧ screenStreamRef h' = screenStreamRef h
  ∧ isScreenSharing h' = isScreenSharing h.
Proof.
  unfold initializeMedia.
  destruct (cameraStreamRef h) as [c|] eqn:Hc.
  - destruct (active c h) eqn:Ha; simpl.
    + split; [by intros c' [= <-] _|]. split; [by intros m [= <-]|].
      split; [by intros [=]|].
      split; [intros Hno; specialize (Hno c eq_refl); congruence|]. done.
    + destruct granted as [m|]; simpl.
      * split; [intros c' [= <-] Ha'; congruence|].
        split; [by intros m' [= <-]|]. split; [by intros [=]|].
        split; [by intros _|]. done.
      * split; [intros c' [= <-] Ha'; congruence|].
        split; [by intros m' [=]|]. split; [done|].
        split; [by intros _|]. done.
  - destruct granted as [m|]; simpl.
    + split; [by intros c' [=]|].
      split; [by intros m' [= <-]|]. split; [by intros [=]|].
      split; [by intros _|]. done.
    + split; [by intros c' [=]|].
      split; [by intros m' [=]|]. split; [done|].
      split; [by intros _|]. done.
Qed.

(** X15. Starting a screen share that the browser refuses changes
    nothing. A stream the browser grants is kept and the sharing flag is
    set, but the stream is returned only if it has a video track. Stopping
    the share clears the flag and the stream kept, and stops the tracks
    of that stream and no other track; stopping twice is stopping once;
    the camera stream and its video track are not touched. *)
Theorem screen_share_start_and_stop (h : Hook) :
  startScreenShare None h = (h, None)
  ∧ (∀ s, let h' := (startScreenShare (Some s) h).1 in
          let result := (startScreenShare (Some s) h).2 in
          isScreenSharing h' = true
          ∧ screenStreamRef h' = Some s
          ∧ (result = Some s ↔ is_Some (head (getVideoTracks s)))
          ∧ (result = None ↔ getVideoTracks s = [])
          ∧ stopScreenShare h'
            = {| stream := stream h; isMicOn := isMicOn h;
                 isCameraOn := isCameraOn h; isScreenSharing := false;
                 cameraStreamRef := cameraStreamRef h;
                 screenStreamRef := None; disabled := disabled h;
                 stopped := stopTracks s (stopped h) |})
  ∧ (let h' := stopScreenShare h in
     isScreenSharing h' = false
     ∧ screenStreamRef h' = None
     ∧ (∀ x, x ∈ stopped h' ↔
             x ∈ stopped h
             ∨ ∃ s t, screenStreamRef h = Some s ∧ t ∈ getTracks s
                      ∧ trackId t = x)
     ∧ getCameraVideoTrack h' = getCameraVideoTrack h
     ∧ stream h' = stream h
     ∧ disabled h' = disabled h
     ∧ stopScreenShare h' = h').
Proof.
  split; [done|]. split.
  - intros s. simpl. unfold startScreenShare.
    destruct (head (getVideoTracks s)) as [t|] eqn:Hv; simpl.
    + split; [done|]. split; [done|]. split; [by split; [eexists|]|].
      split; [|done]. split; [done|]. intros Hnil. by rewrite Hnil in Hv.
    + split; [done|]. split; [done|]. split; [by split; [|intros [? ?]]|].
      split; [|done]. split; [|done]. intros _. by destruct (getVideoTracks s).
  - simpl. unfold stopScreenShare.
    destruct (screenStreamRef h) as [s|] eqn:Hs; simpl.
    + split; [done|]. split; [done|]. split; [|done].
      intros x. unfold stopTracks. split.
      * intros Hx. apply elem_of_union in Hx as [Hx|Hx]; [by left|].
        right. apply elem_of_list_to_set, list_elem_of_fmap in Hx
          as (t & -> & Ht). by exists s, t.
      * intros [Hx|(s' & t & [= <-] & Ht & <-)]; apply elem_of_union.
        -- by left.
        -- right. apply elem_of_list_to_set, list_elem_of_fmap. by exists t.
    + split; [done|]. split; [done|]. split; [|done].
      intros x. split; [by left|]. by intros [Hx|(s' & t & ? & _)].
Qed.

End MediaHook.

(** * The call screen *)

Section CallScreen.

Import UseMediaStream.

(** X16. A click on the microphone button always sends one toggle-media
    message for audio, and it announces the opposite of [isMicOn] as it
    was at the click; a click on the camera button does the same for
    video and [isCameraOn]. When the flag agreed with the first track of
    that kind before the click, what is announced is the state of the
    track after it, and the flag agrees again. Without a stream the
    message is sent all the same, though nothing was toggled. *)
Theorem toggles_are_announced (c : Call) :
  let m := localMedia c in
  (effects (webRTC (handleMicToggle c))
   = effects (webRTC c)
     ++ [(now (webRTC c), Emit (Out_toggle_media roomId audio (negb (isMicOn m))))]
   ∧ effects (webRTC (handleCamToggle c))
     = effects (webRTC c)
       ++ [(now (webRTC c), Emit (Out_toggle_media roomId video (negb (isCameraOn m))))])
  ∧ (∀ s t, stream m = Some s → head (getAudioTracks s) = Some t →
       isMicOn m = enabled t m →
       let m' := localMedia (handleMicToggle c) in
       negb (isMicOn m) = enabled t m' ∧ isMicOn m' = enabled t m')
  ∧ (∀ s t, stream m = Some s → head (getVideoTracks s) = Some t →
       isCameraOn m = enabled t m →
       let m' := localMedia (handleCamToggle c) in
       negb (isCameraOn m) = enabled t m' ∧ isCameraOn m' = enabled t m')
  ∧ (stream m = None →
     localMedia (handleMicToggle c) = m ∧ localMedia (handleCamToggle c) = m).
Proof.
  intros m. split; [done|]. split; [|split].
  - intros s t Hs Ht Hsync m'. subst m'. simpl. fold m.
    rewrite (toggleMic_value m s t Hs Ht), Hsync. unfold enabled. simpl.
    by rewrite flip_member.
  - intros s t Hs Ht Hsync m'. subst m'. simpl. fold m.
    rewrite (toggleCamera_value m s t Hs Ht), Hsync. unfold enabled. simpl.
    by rewrite flip_member.
  - intros Hs. simpl. fold m. unfold toggleMic, toggleCamera. by rewrite Hs.
Qed.

Lemma head_filter_find {A} (p : A → bool) (l : list A) (x : A) :
  head (List.filter p l) = Some x →
  ∃ i, Js.find p l = Some i ∧ l !! i = Some x ∧ p x = true.
Proof.
  induction l as [|a l IH]; simpl; [done|].
  destruct (p a) eqn:Hp; simpl.
  - intros [= <-]. by exists 0.
  - intros H. destruct (IH H) as (i & Hi & Hl & Hx).
    exists (S i). by rewrite Hi.
Qed.

Lemma startScreenShare_value s t m :
  head (getVideoTracks s) = Some t →
  startScreenShare (Some s) m
  = ({| stream := stream m; isMicOn := isMicOn m; isCameraOn := isCameraOn m;
        isScreenSharing := true; cameraStreamRef := cameraStreamRef m;
        screenStreamRef := Some s;
        disabled := disabled m; stopped := stopped m |}, Some s).
Proof. intros Ht. unfold startScreenShare. by rewrite Ht. Qed.

Lemma shareScreen_value s t c :
  head (getVideoTracks s) = Some t →
  shareScreen (Some s) c
  = {| localMedia := (startScreenShare (Some s) (localMedia c)).1;
       webRTC := emitScreenShareStatus true
                   (toggleMediaStatus video true (replaceTrack t (webRTC c))) |}.
Proof.
  intros Ht. unfold shareScreen.
  rewrite (startScreenShare_value s t (localMedia c) Ht). by rewrite Ht.
Qed.

Lemma backToCamera_value t c :
  getCameraVideoTrack (localMedia c) = Some t →
  backToCamera c
  = {| localMedia := stopScreenShare (localMedia c);
       webRTC := emitScreenShareStatus false
                   (toggleMediaStatus video true (replaceTrack t (webRTC c))) |}.
Proof.
  intros Ht. unfold backToCamera.
  assert (H : getCameraVideoTrack (stopScreenShare (localMedia c)) = Some t).
  { rewrite <- Ht. unfold getCameraVideoTrack, stopScreenShare.
    by destruct (screenStreamRef (localMedia c)). }
  by rewrite H.
Qed.

(** X17. Sharing the screen and going back is a round trip. In a call in
    which no track was replaced before and whose camera stream is the
    local stream, starting a share that the browser grants puts the
    first video track of the granted stream into the first video sender
    of every connection; stopping it, by the button or because the
    browser ended the track, puts the camera track back, so that the
    connections are as they were before. Four messages are sent, in this
    order: video on, sharing started, video on, sharing stopped. The
    tracks of the granted stream are stopped and the sharing flag is
    off. *)
Theorem screen_share_round_trip (steps : list Step) (m : Hook)
    (granted : MediaStream) (screenTrack cameraTrack : MediaStreamTrack) :
  forallb (λ s, negb (isReplaceTrack s)) steps = true →
  cameraStreamRef m = Some localStream →
  isScreenSharing m = false →
  head (getVideoTracks granted) = Some screenTrack →
  head (getVideoTracks localStream) = Some cameraTrack →
  let c := {| localMedia := m; webRTC := run steps mounted |} in
  let sharing := handleToggleScreenShare (Some granted) c in
  let back := handleToggleScreenShare None sharing in
  peersRef (webRTC sharing) = replaceIn screenTrack <$> peersRef (webRTC c)
  ∧ isScreenSharing (localMedia sharing) = true
  ∧ back = backToCamera sharing
  ∧ peersRef (webRTC back) = peersRef (webRTC c)
  ∧ effects (webRTC back)
    = effects (webRTC c)
      ++ ((λ msg, (now (webRTC c), Emit msg))
          <$> [ Out_toggle_media roomId video true;
                Out_screen_share_status roomId true;
                Out_toggle_media roomId video true;
                Out_screen_share_status roomId false ])
  ∧ isScreenSharing (localMedia back) = false
  ∧ screenStreamRef (localMedia back) = None
  ∧ ∀ t, t ∈ getTracks granted → trackId t ∈ stopped (localMedia back).
Proof.
  intros Hall Hcam Hoff Hscreen Hcamera c sharing back.
  set (m1 := {| stream := stream m; isMicOn := isMicOn m;
                isCameraOn := isCameraOn m; isScreenSharing := true;
                cameraStreamRef := cameraStreamRef m;
                screenStreamRef := Some granted;
                disabled := disabled m; stopped := stopped m |}).
  assert (Hsharing : sharing
    = {| localMedia := m1;
         webRTC := emitScreenShareStatus true
                     (toggleMediaStatus video true
                        (replaceTrack screenTrack (run steps mounted))) |}).
  { subst sharing. unfold handleToggleScreenShare.
    change (isScreenSharing (localMedia c)) with (isScreenSharing m).
    rewrite Hoff, (shareScreen_value granted screenTrack c Hscreen).
    change (localMedia c) with m.
    by rewrite (startScreenShare_value granted screenTrack m Hscreen). }
  assert (Hback : back = backToCamera sharing).
  { subst back. unfold handleToggleScreenShare. by rewrite Hsharing. }
  assert (Hkinds : kind screenTrack = kind cameraTrack).
  { pose proof Hscreen as H1. pose proof Hcamera as H2.
    apply head_filter_find in H1 as (_ & _ & _ & H1).
    apply head_filter_find in H2 as (_ & _ & _ & H2).
    apply bool_decide_eq_true in H1, H2. congruence. }
  assert (Hfirst : ∀ i,
    Js.find (λ t, bool_decide (kind t = kind cameraTrack)) (getTracks localStream)
    = Some i → getTracks localStream !! i = Some cameraTrack).
  { intros i Hi. pose proof Hcamera as Hc.
    apply head_filter_find in Hc as (j & Hj & Hl & Hk).
    apply bool_decide_eq_true in Hk.
    assert (Hij : Js.find (λ t, bool_decide (kind t = kind cameraTrack))
                    (getTracks localStream)
                  = Js.find (λ t, bool_decide (kind t = video))
                      (getTracks localStream)).
    { apply find_same_tests, list_fmap_ext. intros k t _. simpl. by rewrite Hk. }
    rewrite Hij, Hj in Hi. by injection Hi as <-. }
  assert (Hround : replaceTrack cameraTrack
                     (replaceTrack screenTrack (run steps mounted))
                   = run steps mounted) by by apply replace_round_trip.
  assert (Hbackval : back
    = {| localMedia := stopScreenShare m1;
         webRTC := emitScreenShareStatus false
                     (toggleMediaStatus video true
                        (replaceTrack cameraTrack (webRTC sharing))) |}).
  { rewrite Hback, (backToCamera_value cameraTrack sharing).
    - by rewrite Hsharing.
    - rewrite Hsharing. unfold getCameraVideoTrack. simpl. by rewrite Hcam. }
  split; [by rewrite Hsharing|]. split; [by rewrite Hsharing|].
  split; [done|].
  assert (Hpeers : peersRef (webRTC back) = peersRef (run steps mounted)).
  { rewrite Hbackval, Hsharing.
    change (peersRef (webRTC
              {| localMedia := stopScreenShare m1;
                 webRTC := emitScreenShareStatus false
                   (toggleMediaStatus video true
                      (replaceTrack cameraTrack
                         (webRTC
                            {| localMedia := m1;
                               webRTC := emitScreenShareStatus true
                                 (toggleMediaStatus video true
                                    (replaceTrack screenTrack
                                       (run steps mounted))) |}))) |}))
      with (peersRef (replaceTrack cameraTrack
                        (replaceTrack screenTrack (run steps mounted)))).
    by rewrite Hround. }
  split; [done|]. split.
  { rewrite Hbackval, Hsharing. simpl. by rewrite <- !app_assoc. }
  rewrite Hbackval. simpl. split; [done|]. split; [done|].
  intros t Ht. unfold stopTracks. apply elem_of_union. right.
  apply elem_of_list_to_set, list_elem_of_fmap. by exists t.
Qed.

End CallScreen.

(** * More on timers and announcements *)

(** X18. At every state the event loop reaches a peer has at most one
    timer pending; it is the one [iceCandidateTimers] holds for the peer,
    it is due within 50ms, and candidates are queued for the peer: no
    timer fires for nothing, and none fires twice. *)
Theorem one_timer_per_peer (steps : list Step) (t : Timeout) :
  let st := run steps mounted in
  t ∈ timeouts st →
  (∀ t', t' ∈ timeouts st → key t' = key t → t' = t)
  ∧ iceCandidateTimers st !! key t = Some (handle t)
  ∧ deadline t ≤ now st + 50
  ∧ queued (key t) st ≠ [].
Proof.
  intros st Ht.
  pose proof (run_timersInSync steps) as Hsync.
  pose proof (run_queuesArmed steps) as [Ha Hb].
  fold st in Hsync, Ha, Hb.
  pose proof Hsync as (H1 & H2 & H3).
  destruct (H1 t Ht) as [Hl _].
  split; [|split; [done|split; [by apply Hb|]]].
  - intros t' Ht' Hk. apply (handle_inj st t' t Hsync Ht' Ht).
    destruct (H1 t' Ht') as [Hl' _]. rewrite Hk, Hl in Hl'. congruence.
  - assert (Hq : ∀ steps', let st' := run steps' mounted in
                 ∀ u, u ∈ timeouts st' → queued (key u) st' ≠ []).
    { clear. intros steps'.
      induction steps' as [|s steps' IH] using rev_ind.
      - intros st' u Hu. by apply elem_of_nil in Hu.
      - intros st' u Hu. subst st'. rewrite run_snoc in *.
        set (st0 := run steps' mounted) in *.
        pose proof (run_timersInSync steps') as Hsync0. fold st0 in Hsync0.
        destruct s as [e|a].
        + cbn [step] in *. unfold queued.
          rewrite (deliver_keeps _ handlerFree_queue).
          assert (Hto : timeouts (deliver e st0) = timeouts st0).
          { exact (f_equal (λ x, x.1.1) (deliver_keeps _ handlerFree_timerPart e st0)). }
          rewrite Hto in Hu. by apply IH.
        + cbn [step] in *. destruct a; cbn [act] in *;
            try (by apply IH); try (case_bool_decide; by apply IH).
          * case_bool_decide as Hpc; [|by apply IH].
            destruct candidate as [c|]; [|by apply IH].
            destruct (onicecandidate_rearm peer c st0 Hsync0)
              as (Hto & _ & Hq & _).
            unfold queued. rewrite Hq. rewrite Hto in Hu.
            apply elem_of_app in Hu as [Hu|Hu].
            -- apply list_elem_of_In, filter_In in Hu as [Hu Hk].
               apply negb_true_iff, bool_decide_eq_false in Hk.
               rewrite lookup_insert_ne by done.
               apply IH. by apply list_elem_of_In.
            -- apply list_elem_of_singleton in Hu as ->. simpl.
               rewrite lookup_insert_eq. simpl.
               by destruct (default [] (iceCandidateQueue st0 !! peer)).
          * revert Hu. unfold elapse.
            generalize (length (timeouts st0)) as fuel.
            generalize (now st0 + ms) as until.
            intros until fuel. revert IH Hsync0. generalize st0 as st1.
            induction fuel as [|fuel IHf]; intros st1 IH1 Hs1; simpl;
              destruct (nextDue until (timeouts st1)) as [v|] eqn:Hd;
              try (intros Hu; by apply IH1).
            apply nextDue_elem in Hd as [Hv _].
            apply IHf; [|by apply fire_timersInSync].
            intros u' Hu'. unfold fire in Hu' |- *.
            rewrite flush_timeouts in Hu'. cbn [timeouts clearTimeout setTimeouts setNow] in Hu'.
            apply elem_of_clear in Hu' as [Hu' Hne].
            assert (Hkey : key v ≠ key u').
            { intros Hk. apply Hne. symmetry.
              destruct Hs1 as (G1 & _ & _).
              destruct (G1 v Hv) as [Lv _]. destruct (G1 u' Hu') as [Lu _].
              rewrite Hk, Lu in Lv. congruence. }
            unfold queued. rewrite flush_queue_other by done. by apply IH1. }
    by apply (Hq steps).
Qed.

(** X19. A user-joined event for a peer that is already in the roster
    and already has a connection only plays the notification sound: no
    participant, no connection and no offer is made a second time. For a
    peer that is new the sound is played, the participant is added at the
    end of the roster, a connection is made and one offer is asked of
    it. *)
Theorem user_joined_creates_once (data : UserInfo) (st : State) :
  let st' := handle_event (In_user_joined data) st in
  (is_Some (peersRef st !! userId data) →
   userId data ∈ id <$> participants st →
   st' = playNotificationSound st)
  ∧ (peersRef st !! userId data = None →
     userId data ∉ id <$> participants st →
     participants st'
     = participants st
       ++ [ {| id := userId data; name := userName data; stream := None;
               isMicOn := true; isCameraOn := true |} ]
     ∧ effects st'
       = effects st ++ [ (now st, PlaySound); (now st, PcNew (userId data));
                         (now st, PcCreateOffer (userId data)) ]
     ∧ is_Some (peersRef st' !! userId data))
  ∧ handle_event (In_user_joined data) st' = playNotificationSound st'.
Proof.
  cbn [handle_event].
  assert (Hknown : ∀ st0, is_Some (peersRef st0 !! userId data) →
                          userId data ∈ id <$> participants st0 →
                          on_user_joined data st0 = playNotificationSound st0).
  { intros st0 [pc Hpc] Hin. unfold on_user_joined, createPeerConnection.
    simpl. rewrite Hpc.
    assert (Hadd : addParticipant (userId data) (userName data) (participants st0)
                   = participants st0).
    { unfold addParticipant. destruct (Js.some _ _) eqn:Hs; [done|].
      by apply some_false_not_elem in Hs. }
    destruct st0. unfold playNotificationSound, perform, setParticipants.
    simpl in *. by rewrite Hadd. }
  split; [by apply Hknown|]. split.
  - intros Hl Hnot. unfold on_user_joined, createPeerConnection. simpl.
    rewrite Hl. simpl. rewrite lookup_insert_eq.
    assert (Hadd : addParticipant (userId data) (userName data) (participants st)
                   = participants st ++ [newParticipant (userId data) (userName data)]).
    { unfold addParticipant. destruct (Js.some _ _) eqn:Hs; [|done].
      by apply some_true_elem in Hs. }
    rewrite Hadd. split; [done|]. split; [|by eexists].
    by rewrite <- !app_assoc.
  - apply Hknown.
    + apply on_user_joined_peer.
    + rewrite on_user_joined_participants. unfold addParticipant.
      destruct (Js.some _ _) eqn:Hs.
      * by apply some_true_elem.
      * rewrite fmap_app. apply elem_of_app. right. simpl. left.
Qed.

End Hook.

(** * The properties on sample runs *)

(** C1, as stated, fails: a join approval followed by a
    waiting-for-approval event takes the status from joined back to
    waiting, which is not a forward move. *)
Lemma status_moves_back_to_waiting :
  let st := run "room" media [Inbound In_join_approved] (mounted "room" "me") in
  connectionStatus st = joined
  ∧ connectionStatus (step "room" media (Inbound In_waiting_for_approval) st)
    = waiting
  ∧ forward joined waiting = false.
Proof. vm_compute. auto. Qed.

(** After the effect has run, waiting-for-approval and then
    join-rejected leave the socket disconnected, and a join approval and
    a roster snapshot that follow leave the status rejected. *)
Lemma rejected_after_waiting_disconnects :
  let c' := play "room" "me" media
              [Render true; Receive In_waiting_for_approval;
               Receive In_join_rejected] unmounted in
  online c' = false
  ∧ status (play "room" "me" media
              [Receive In_join_approved; Receive (In_existing_users [alice])] c')
    = rejected.
Proof.
  intros c'.
  destruct (status_forward_except_waiting "room" "me" media
              [Render true; Receive In_waiting_for_approval]
              (Receive In_join_rejected)) as (_ & Henter & Hstay & _).
  destruct Henter as [_ Hoff]; [vm_compute; discriminate|reflexivity|].
  split; [exact Hoff|].
  apply (Hstay eq_refl Hoff).
  intros H. repeat (apply elem_of_cons in H as [H|H]; [discriminate|]).
  by apply elem_of_nil in H.
Defined.

(** Rejected does not outlast the run of the effect: once the effect has
    run again, a join approval takes the status from rejected to
    joined. *)
Lemma rejected_left_after_rerun :
  let c := play "room" "me" media
             [Render true; Receive In_waiting_for_approval;
              Receive In_join_rejected] unmounted in
  status c = rejected
  ∧ status (turn "room" "me" media (Receive In_join_approved) c) = rejected
  ∧ status (play "room" "me" media [Render true; Receive In_join_approved] c)
    = joined
  ∧ forward rejected joined = false.
Proof. vm_compute. auto. Qed.

(** C2, on the code. Two join requests of one requester, the second
    arriving while the first is pending, are both queued: the queue then
    holds two entries of the same user id. *)
Lemma duplicate_join_request_queued :
  pendingRequests
    (run "room" media
       [Inbound (In_join_request alice); Inbound (In_join_request alice')]
       (mounted "room" "me"))
  = [alice; alice']
  ∧ userId alice = userId alice'.
Proof. vm_compute. auto. Qed.

(** C3, as stated, fails: with two candidates queued for a peer, the
    timer that fires sends two messages, not one. *)
Lemma flush_sends_two_messages :
  let st := run "room" media
              [ Inbound (In_user_joined bob);
                Local (OnIceCandidate "B" (Some "C1"));
                Local (OnIceCandidate "B" (Some "C2")) ]
              (mounted "room" "me") in
  let timer := {| handle := 2; deadline := 50; key := "B" |} in
  timeouts st = [timer]
  ∧ iceCandidateQueue st !! "B" = Some ["C1"; "C2"]
  ∧ effects (fire "room" timer st)
    = effects st ++ [ (50, Emit (Out_ice_candidate "room" "B" "C1"));
                      (50, Emit (Out_ice_candidate "room" "B" "C2")) ]
  ∧ ¬ ∃ m, effects (fire "room" timer st) = effects st ++ [m].
Proof.
  split; [by vm_compute|]. split; [by vm_compute|]. split; [by vm_compute|].
  intros [m Hm]. apply (f_equal length) in Hm.
  rewrite length_app in Hm. vm_compute in Hm. discriminate Hm.
Qed.

(** Ten milliseconds after Bob's first candidate his timer, due at 50ms,
    is still pending. *)
Lemma timer_pending_after_ten_ms :
  now (run "room" media
         [Inbound (In_user_joined bob); Local (OnIceCandidate "B" (Some "C1"))]
         (mounted "room" "me")) + 10
  < deadline {| handle := 1; deadline := 50; key := "B" |}.
Proof.
  apply (proj1 (proj2 (ice_candidates_debounced "room" "me" media))
           [Inbound (In_user_joined bob); Local (OnIceCandidate "B" (Some "C1"))]
           10).
  vm_compute. left.
Defined.

(** Bob has a connection once he joined; creating it again changes
    nothing. *)
Lemma second_creation_for_bob :
  let st := run "room" media [Inbound (In_user_joined bob)] (mounted "room" "me") in
  createPeerConnection "B" "Bob" true media st = st.
Proof.
  apply (proj1 (createPeerConnection_idempotent "room" "me" media)).
  vm_compute. eauto.
Defined.

(** The microphone sender of the connection for A is not the sender
    found for a video track, so it is kept. *)
Lemma microphone_sender_kept :
  ∃ pc', peersRef (replaceTrack screen twoConnections) !! "A" = Some pc'
         ∧ getSenders pc' !! 0 = Some {| track := Some microphone |}.
Proof.
  pose proof (proj2 (proj1 replaceTrack_swaps_matching_sender screen twoConnections) "A")
    as H.
  change (peersRef twoConnections !! "A")
    with (Some {| getSenders := [ {| track := Some microphone |};
                                  {| track := Some camera |} ] |}) in H.
  destruct H as (pc' & Hpc' & _ & H).
  change (findSender screen
            {| getSenders := [ {| track := Some microphone |};
                               {| track := Some camera |} ] |})
    with (Some 1) in H.
  destruct H as (_ & _ & _ & Hother).
  exists pc'. split; [exact Hpc'|]. rewrite (Hother 0); [reflexivity|lia].
Defined.

(** Every participant of the roster made from the snapshot A, A, B comes
    from an entry of the snapshot. *)
Lemma snapshot_roster_from_entries :
  ∃ u, u ∈ [alice; alice'; bob]
       ∧ {| id := "A"; name := "Alice"; stream := None;
            isMicOn := true; isCameraOn := true |}
         = {| id := userId u; name := userName u; stream := None;
              isMicOn := true; isCameraOn := true |}.
Proof.
  apply (proj1 (proj2 (proj2
           (existing_users_deduplicated media [alice; alice'; bob]
              (mounted "room" "me"))))).
  vm_compute. left.
Defined.

(** Bob joins and leaves on the connected socket of a fresh session. *)
Lemma bob_joined_then_left :
  let st' := run "room" media
               [ Inbound (In_user_joined bob); Inbound (In_user_left bob) ]
               (mounted "room" "me") in
  (∀ p, p ∈ participants st' → id p ≠ "B") ∧ peersRef st' !! "B" = None.
Proof.
  apply (proj2 (joined_then_left_leaves_nothing "room" media)
           "B" "Bob" "Bob" (mounted "room" "me")).
  reflexivity.
Defined.

(** C9, as stated, fails: admitting or rejecting B while only the
    request of A is pending is not ignored, the decision on B is sent to
    the server all the same. *)
Lemma unknown_id_decision_sent :
  let st := run "room" media [Inbound (In_join_request alice)] (mounted "room" "me") in
  ("B" ∉ userId <$> pendingRequests st)
  ∧ emitted (admitUser "room" "B" st) = emitted st ++ [Out_admit_user "B" "room"]
  ∧ emitted (rejectUser "room" "B" st) = emitted st ++ [Out_reject_user "B" "room"]
  ∧ admitUser "room" "B" st ≠ st
  ∧ rejectUser "room" "B" st ≠ st.
Proof.
  split; [|split; [|split; [|split]]].
  - vm_compute. intros H. inversion H as [|? ? ? H']; subst. inversion H'.
  - reflexivity.
  - reflexivity.
  - vm_compute. discriminate.
  - vm_compute. discriminate.
Qed.

(** Admitting or rejecting B while only A is pending leaves the queue. *)
Lemma admit_unknown_keeps_queue :
  let st := run "room" media [Inbound (In_join_request alice)] (mounted "room" "me") in
  pendingRequests (admitUser "room" "B" st) = pendingRequests st
  ∧ pendingRequests (rejectUser "room" "B" st) = pendingRequests st.
Proof.
  apply (proj2 (proj2 (admit_reject_dequeue "room" "B"
           (run "room" media [Inbound (In_join_request alice)] (mounted "room" "me"))))).
  vm_compute. intros H. inversion H as [|? ? ? H']; subst. inversion H'.
Defined.

(** Bob, announced to an empty roster, starts without a stream, with
    the microphone and the camera on. *)
Lemma bob_joins_without_stream :
  participants
    (handle_event media (In_user_joined bob) (mounted "room" "me"))
  = [ {| id := "B"; name := "Bob"; stream := None;
         isMicOn := true; isCameraOn := true |} ].
Proof.
  apply (proj1 (proj1 (participants_start_without_stream "room" media)
                  bob (mounted "room" "me"))).
  vm_compute. apply not_elem_of_nil.
Defined.


(** * The further properties on sample runs *)

(** An answer from Bob before he is known changes nothing. *)
Lemma early_answer_dropped :
  handle_event media (In_answer "B" "sdp") (mounted "room" "me")
  = mounted "room" "me".
Proof.
  apply (proj1 (stale_signaling_ignored media) "B" "sdp" "candidate"
           (mounted "room" "me")).
  reflexivity.
Defined.

(** A media status of Bob, who is not in the roster, changes nothing. *)
Lemma status_of_unknown_peer_dropped :
  handle_event media (In_media_status_update "B" audio false) (mounted "room" "me")
  = mounted "room" "me".
Proof.
  apply (proj1 (proj2 (proj2 (proj2
           (media_status_update_sets_one_flag media "B" audio false
              (mounted "room" "me")))))).
  apply not_elem_of_nil.
Defined.

(** Bob's first offer makes his connection and hands it the offer. *)
Lemma first_offer_from_bob :
  effects (handle_event media (In_offer "B" "sdp" "Bob") (mounted "room" "me"))
  = effects (mounted "room" "me")
    ++ [(0, PcNew "B"); (0, PcSetRemoteDescription "B" "sdp")].
Proof.
  apply (proj2 (proj2
           (offer_creates_once media "B" "sdp" "Bob" (mounted "room" "me")))).
  reflexivity.
Defined.

(** With Bob connected, sharing the screen and returning to the camera
    restores the state. *)
Lemma screen_then_camera_for_bob :
  let st := run "room" media [Inbound (In_user_joined bob)] (mounted "room" "me") in
  replaceTrack camera (replaceTrack screen st) = st.
Proof.
  apply (proj2 (replaceTrack_last_wins "room" "me" media)
           [Inbound (In_user_joined bob)] camera screen).
  - reflexivity.
  - reflexivity.
  - intros i. vm_compute. intros [= <-]. reflexivity.
Defined.

(** Bob leaves before he was ever connected: nothing is closed. *)
Lemma unknown_peer_leaves :
  effects (handle_event media (In_user_left bob) (mounted "room" "me"))
  = effects (mounted "room" "me").
Proof.
  apply (proj1 (proj2 (user_left_once "room" media bob (mounted "room" "me")))).
  reflexivity.
Defined.

(** Bob asks to join and is admitted: the queue is empty again. *)
Lemma bob_requested_and_admitted :
  pendingRequests
    (admitUser "room" "B"
       (handle_event media (In_join_request bob) (mounted "room" "me")))
  = [].
Proof.
  apply (request_then_decision "room" media bob (mounted "room" "me")).
  apply not_elem_of_nil.
Defined.

(** The cleanup after the first run of the effect leaves no listener. *)
Lemma first_cleanup_unsubscribes :
  listeners (useEffect_cleanup "room" (useEffect_body "room" "me" fresh)) = [].
Proof.
  apply (proj2 (proj2 (proj2 (proj2 (proj2
           (listeners_registered_once "room" "me" media [])))))).
  intros x Hx. exact Hx.
Defined.

(** The first click on the microphone button disables the microphone. *)
Lemma first_mic_click :
  UseMediaStream.enabled microphone (UseMediaStream.toggleMic mediaReady)
  = negb (UseMediaStream.enabled microphone mediaReady).
Proof.
  apply (proj2 (proj2 (toggleMic_flips_first_audio_track mediaReady))
           media microphone); reflexivity.
Defined.

(** The first click on the camera button disables the camera. *)
Lemma first_camera_click :
  UseMediaStream.enabled camera (UseMediaStream.toggleCamera mediaReady)
  = negb (UseMediaStream.enabled camera mediaReady).
Proof.
  apply (proj2 (proj2 (toggleCamera_flips_first_video_track mediaReady))
           media camera); reflexivity.
Defined.

(** With the camera stream live, a second initialisation reuses it. *)
Lemma second_initialisation_reuses :
  (UseMediaStream.initializeMedia None mediaReady).2 = Some media.
Proof.
  apply (proj1 (initializeMedia_reuses_camera None mediaReady) media);
    reflexivity.
Defined.

(** A granted display stream with a video track is returned. *)
Lemma display_is_returned :
  (UseMediaStream.startScreenShare (Some display) mediaReady).2 = Some display.
Proof.
  apply (proj2 (proj1 (proj2 (proj2
           (proj1 (proj2 (screen_share_start_and_stop mediaReady)) display))))).
  vm_compute. eauto.
Defined.

(** The first click on the microphone button announces what the track
    then is. *)
Lemma first_mic_click_announced :
  let c := {| localMedia := mediaReady; webRTC := mounted "room" "me" |} in
  negb (UseMediaStream.isMicOn mediaReady)
  = UseMediaStream.enabled microphone (localMedia (handleMicToggle "room" c)).
Proof.
  apply (proj1 (proj2 (toggles_are_announced "room"
           {| localMedia := mediaReady; webRTC := mounted "room" "me" |}))
           media microphone); reflexivity.
Defined.

(** With Bob connected, a screen share that is started and stopped leaves
    his connection as it was. *)
Lemma share_and_back_with_bob :
  let c := {| localMedia := mediaReady;
              webRTC := run "room" media [Inbound (In_user_joined bob)]
                          (mounted "room" "me") |} in
  peersRef (webRTC (handleToggleScreenShare "room" None
                      (handleToggleScreenShare "room" (Some display) c)))
  = peersRef (webRTC c).
Proof.
  apply (screen_share_round_trip "room" "me" media
           [Inbound (In_user_joined bob)] mediaReady display screen camera);
    reflexivity.
Defined.

(** After Bob's first candidate his one timer is the one held for him. *)
Lemma bob_has_one_timer :
  iceCandidateTimers
    (run "room" media
       [Inbound (In_user_joined bob); Local (OnIceCandidate "B" (Some "C1"))]
       (mounted "room" "me")) !! "B"
  = Some 1%positive.
Proof.
  apply (one_timer_per_peer "room" "me" media
           [Inbound (In_user_joined bob); Local (OnIceCandidate "B" (Some "C1"))]
           {| handle := 1; deadline := 50; key := "B" |}).
  vm_compute. left.
Defined.

(** A second user-joined for Bob only plays the sound. *)
Lemma bob_announced_twice :
  let st := run "room" media [Inbound (In_user_joined bob)] (mounted "room" "me") in
  handle_event media (In_user_joined bob) st = playNotificationSound st.
Proof.
  apply (proj1 (user_joined_creates_once media bob
           (run "room" media [Inbound (In_user_joined bob)] (mounted "room" "me")))).
  - vm_compute. eauto.
  - vm_compute. left.
Defined.
